(** * QubitText-Compressor: the fixed-width character codec of
    [QubitText-Compressor.py], embedded in Rocq.

    Conventions of the embedding.
    - A Python [str] is a Rocq [string]; a character is an [ascii], read as a
      code point below 256.  [lower], [strip] and [splitlines] are the Python
      built-ins restricted to these code points.  The module [Wide] repeats
      [__init__] and [compress] over lists of code points, for the one place
      where a text outside that range behaves differently: [str.lower] can
      lengthen it.
    - A Python [dict] is a stdpp [gmap]; the codes are the textual bit
      patterns the source stores (strings of '0' and '1').
    - Lengths, indices and byte values are [nat]; the only subtraction that
      could go below zero is done in [Z].
    - Every [raise] is a value [Raise e] of [result]; the [while] loop of
      [decompress] runs on fuel and [None] stands for a loop that does not
      stop. *)

From Stdlib Require Import Ascii String ZArith Lia.
From stdpp Require Import base option list gmap strings.

Local Open Scope nat_scope.

(** ** Exceptions and results *)

Inductive exn : Type :=
| EmptyTable                          (* ValueError: Table file is empty or invalid *)
| TableTooLarge (num_chars : nat)     (* ValueError: Table has .. chars, requiring .. bits/char; max 5 bits supported *)
| UnsupportedCharacter (char : ascii) (* ValueError: Unsupported character: '..' *)
| InvalidCode (code : string)         (* ValueError: Invalid code: .. *)
| KeyError (key : string)             (* a failed dict subscript *)
| InvalidLiteral (s : string)         (* int(s, 2) on a string that is no bit pattern *)
| ByteOutOfRange (n : nat).           (* bytearray.append outside range(256) *)

Inductive result (A : Type) : Type :=
| Ok (a : A)
| Raise (e : exn).
Arguments Ok {A} a.
Arguments Raise {A} e.

#[global] Instance result_ret : MRet result := fun A a => Ok a.
#[global] Instance result_bind : MBind result :=
  fun A B f m => match m with Ok a => f a | Raise e => Raise e end.

(** The two spec-level error classes the table builder can produce. *)
Definition is_InvalidTable (e : exn) : bool :=
  match e with EmptyTable | TableTooLarge _ => true | _ => false end.

(** ** Python string built-ins *)

Definition str (c : ascii) : string := String c EmptyString.

(** [s[i:i+n]] for a string: Stdlib's [substring i n s] truncates at the end
    of [s] the way a Python slice does. *)
Definition slice (s : string) (i n : nat) : string := substring i n s.

Fixpoint str_repeat (c : ascii) (n : nat) : string :=
  match n with
  | 0 => EmptyString
  | S n' => String c (str_repeat c n')
  end.

Fixpoint str_contains (c : ascii) (s : string) : bool :=
  match s with
  | EmptyString => false
  | String c' s' => if Ascii.eqb c c' then true else str_contains c s'
  end.

(** [str.isspace] on one code point below 256. *)
Definition is_space (c : ascii) : bool :=
  let n := nat_of_ascii c in
  ((9 <=? n) && (n <=? 13)) || ((28 <=? n) && (n <=? 32))
  || (n =? 133) || (n =? 160).

(** The line boundaries of [str.splitlines] below 256. *)
Definition is_linebreak (c : ascii) : bool :=
  let n := nat_of_ascii c in
  ((10 <=? n) && (n <=? 13)) || ((28 <=? n) && (n <=? 30)) || (n =? 133).

Definition lower_char (c : ascii) : ascii :=
  let n := nat_of_ascii c in
  if ((65 <=? n) && (n <=? 90))
     || ((192 <=? n) && (n <=? 222) && negb (n =? 215))
  then ascii_of_nat (n + 32) else c.

Fixpoint lower (s : string) : string :=
  match s with
  | EmptyString => EmptyString
  | String c s' => String (lower_char c) (lower s')
  end.

Fixpoint lstrip (s : string) : string :=
  match s with
  | EmptyString => EmptyString
  | String c s' => if is_space c then lstrip s' else s
  end.

Fixpoint rstrip (s : string) : string :=
  match s with
  | EmptyString => EmptyString
  | String c s' =>
      match rstrip s' with
      | EmptyString => if is_space c then EmptyString else str c
      | r => String c r
      end
  end.

Definition strip (s : string) : string := rstrip (lstrip s).

(** [s.split(sep)] for a one-character separator. *)
Fixpoint split (sep : ascii) (s : string) : list string :=
  match s with
  | EmptyString => [EmptyString]
  | String c s' =>
      if Ascii.eqb c sep then EmptyString :: split sep s'
      else match split sep s' with
           | [] => [str c]
           | x :: xs => String c x :: xs
           end
  end.

(** [s.splitlines()]: a carriage return followed by a line feed is one
    boundary, and a final boundary opens no empty last line. *)
Fixpoint splitlines (s : string) : list string :=
  match s with
  | EmptyString => []
  | String c s' =>
      if is_linebreak c then
        EmptyString ::
          match s' with
          | String c' s'' =>
              if Ascii.eqb c "013" && Ascii.eqb c' "010"
              then splitlines s'' else splitlines s'
          | EmptyString => []
          end
      else match splitlines s' with
           | [] => [str c]
           | x :: xs => String c x :: xs
           end
  end.

(** ** Numbers and bit patterns *)

Fixpoint bin_pos (p : positive) (acc : string) : string :=
  match p with
  | xH => String "1" acc
  | xO p' => bin_pos p' (String "0" acc)
  | xI p' => bin_pos p' (String "1" acc)
  end.

(** [format(n, 'b')]: the binary digits of [n], most significant first. *)
Definition bin (n : nat) : string :=
  match N.of_nat n with
  | N0 => "0"
  | Npos p => bin_pos p EmptyString
  end.

(** [format(n, '0wb')]: [bin n] padded on the left with zeros to at least
    [w] characters. *)
Definition format_b (w n : nat) : string :=
  let s := bin n in str_repeat "0" (w - String.length s) +:+ s.

(** [int(s, 2)] on a non-empty string of '0' and '1'; anything else is the
    [ValueError] of [int]. *)
Fixpoint int2_digits (acc : nat) (s : string) : option nat :=
  match s with
  | EmptyString => Some acc
  | String c s' =>
      if Ascii.eqb c "0" then int2_digits (2 * acc) s'
      else if Ascii.eqb c "1" then int2_digits (2 * acc + 1) s'
      else None
  end.

Definition int2 (s : string) : result nat :=
  match s with
  | EmptyString => Raise (InvalidLiteral s)
  | _ => match int2_digits 0 s with
         | Some n => Ok n
         | None => Raise (InvalidLiteral s)
         end
  end.

(** [math.ceil(math.log2(x))] for an integer [x >= 1].  The source computes
    it in floating point; on 1 <= x <= 32 that is exact, and for x >= 33 both
    the float and the exact value exceed 5, which is all the source asks of
    it there. *)
Definition ceil_log2 (x : nat) : nat := Nat.log2_up x.

(** [range(start, stop, step)] as a list, for [step >= 1]. *)
Fixpoint range_fuel (fuel start stop step : nat) : list nat :=
  match fuel with
  | 0 => []
  | S fuel' =>
      if start <? stop then start :: range_fuel fuel' (start + step) stop step
      else []
  end.

Definition range (start stop step : nat) : list nat :=
  range_fuel stop start stop step.

Fixpoint enumerate_from {A} (k : nat) (l : list A) : list (nat * A) :=
  match l with
  | [] => []
  | x :: l' => (k, x) :: enumerate_from (S k) l'
  end.

Definition enumerate {A} (l : list A) : list (nat * A) := enumerate_from 0 l.

(** ** The table: [TextCompressor.__init__] *)

Record TextCompressor : Type := mkTextCompressor {
  char_set : list string;
  num_chars : nat;
  bits_per_char : nat;
  char_to_code : gmap string string;
  code_to_char : gmap string (option string);   (* [None] marks EOS *)
  eos_code : string
}.

(** The entries of the table file: [content] is what [f.read()] returned. *)
Definition table_entries (content : string) : list string :=
  let content := strip content in
  if str_contains "," content then split "," content else splitlines content.

(** The loop over the entries that fills [self.char_set]. *)
Definition read_char_set (chars : list string) : list string :=
  foldl (fun char_set char =>
           let char := strip char in
           match char with
           | EmptyString => char_set
           | _ =>
               let char := if String.eqb char "space" then " " else char in
               char_set ++ [lower char]
           end) [] chars.

Definition build_char_to_code (bits : nat) (cs : list string) : gmap string string :=
  foldl (fun d '(i, char) => <[char := format_b bits i]> d) ∅ (enumerate cs).

Definition invert (d : gmap string string) : gmap string (option string) :=
  map_fold (fun k v acc => <[v := Some k]> acc) ∅ d.

(** Everything after the file has been read into [self.char_set]. *)
Definition build_table (cs : list string) : result TextCompressor :=
  match cs with
  | [] => Raise EmptyTable
  | _ =>
      let num_chars := length cs in
      let bits_per_char := ceil_log2 (num_chars + 1) in
      if 5 <? bits_per_char then Raise (TableTooLarge num_chars)
      else
        let char_to_code := build_char_to_code bits_per_char cs in
        let code_to_char := invert char_to_code in
        let eos_code := format_b bits_per_char num_chars in
        Ok {| char_set := cs;
              num_chars := num_chars;
              bits_per_char := bits_per_char;
              char_to_code := char_to_code;
              code_to_char := <[eos_code := None]> code_to_char;
              eos_code := eos_code |}
  end.

Definition init (content : string) : result TextCompressor :=
  build_table (read_char_set (table_entries content)).

(** ** [TextCompressor.compress] *)

(** The validation loop. *)
Fixpoint validate (t : TextCompressor) (text : string) : result unit :=
  match text with
  | EmptyString => Ok tt
  | String char text' =>
      match char_to_code t !! str char with
      | None => Raise (UnsupportedCharacter char)
      | Some _ => validate t text'
      end
  end.

(** The encoding loop, [bitstream += self.char_to_code[char]]. *)
Fixpoint encode_chars (t : TextCompressor) (text bitstream : string) : result string :=
  match text with
  | EmptyString => Ok bitstream
  | String char text' =>
      match char_to_code t !! str char with
      | None => Raise (KeyError (str char))
      | Some code => encode_chars t text' (bitstream +:+ code)
      end
  end.

(** The logical bit stream of a text: its codes, then the EOS code. *)
Definition encode_bits (t : TextCompressor) (text : string) : result string :=
  let text := lower text in
  _ ← validate t text;
  bitstream ← encode_chars t text EmptyString;
  Ok (bitstream +:+ eos_code t).

(** One byte of the packing loop: the zero bits it appends, and the byte. *)
Definition pad_bits (byte_str : string) : nat :=
  if String.length byte_str <? 8 then 8 - String.length byte_str else 0.

Definition pack_byte (bitstream : string) (i : nat) : result nat :=
  let byte_str := slice bitstream i 8 in
  let byte_str := byte_str +:+ str_repeat "0" (pad_bits byte_str) in
  n ← int2 byte_str;
  if n <? 256 then Ok n else Raise (ByteOutOfRange n).

Fixpoint pack_loop (bitstream : string) (idxs : list nat) (compressed : list nat)
  : result (list nat) :=
  match idxs with
  | [] => Ok compressed
  | i :: idxs' =>
      b ← pack_byte bitstream i;
      pack_loop bitstream idxs' (compressed ++ [b])
  end.

Definition pack (bitstream : string) : result (list nat) :=
  pack_loop bitstream (range 0 (String.length bitstream) 8) [].

Definition compress (t : TextCompressor) (text : string) : result (list nat * Z) :=
  bitstream ← encode_bits t text;
  compressed ← pack bitstream;
  Ok (compressed,
      (Z.of_nat (String.length bitstream) - Z.of_nat (bits_per_char t))%Z).

(** ** [TextCompressor.decompress] *)

Fixpoint unpack (compressed : list nat) (bitstream : string) : string :=
  match compressed with
  | [] => bitstream
  | byte :: rest => unpack rest (bitstream +:+ format_b 8 byte)
  end.

(** How the scan ended: the loop condition failed, or one of the two
    [break]s was taken. *)
Inductive stop : Type := Exhausted | Incomplete | Eos.

Fixpoint decode_loop (fuel : nat) (t : TextCompressor) (bitstream : string)
    (i : nat) (text : string) : option (result (string * stop)) :=
  match fuel with
  | 0 => None
  | S fuel' =>
      if i <? String.length bitstream then
        let code := slice bitstream i (bits_per_char t) in
        if String.length code <? bits_per_char t then Some (Ok (text, Incomplete))
        else if String.eqb code (eos_code t) then Some (Ok (text, Eos))
        else
          match code_to_char t !! code with
          | Some (Some char) =>
              decode_loop fuel' t bitstream (i + bits_per_char t) (text +:+ char)
          | _ => Some (Raise (InvalidCode code))
          end
      else Some (Ok (text, Exhausted))
  end.

(** The scan of a whole buffer, with the reason it stopped. *)
Definition decode (t : TextCompressor) (compressed : list nat)
  : option (result (string * stop)) :=
  let bitstream := unpack compressed EmptyString in
  decode_loop (S (String.length bitstream)) t bitstream 0 EmptyString.

Definition decompress (t : TextCompressor) (compressed : list nat)
  : option (result string) :=
  match decode t compressed with
  | None => None
  | Some (Ok (text, _)) => Some (Ok text)
  | Some (Raise e) => Some (Raise e)
  end.

(** ** [calculate_metrics] *)

(** [len(s.encode('utf-8'))] for code points below 256: one byte below 128,
    two bytes from 128 on. *)
Definition utf8_len_char (c : ascii) : nat :=
  if nat_of_ascii c <? 128 then 1 else 2.

Fixpoint utf8_len (s : string) : nat :=
  match s with
  | EmptyString => 0
  | String c s' => utf8_len_char c + utf8_len s'
  end.

(** The value of [compression_ratio]: the float [inf], or the float quotient
    of two integers, kept here as the two integers. *)
Inductive ratio : Type :=
| Infinite
| Quotient (num den : nat).

Record metrics : Type := mkMetrics {
  original_size_bytes : nat;
  compressed_size_bytes : nat;
  compressed_size_bits : nat;
  bitstream_bits : Z;
  compression_ratio : ratio
}.

Definition calculate_metrics (original : string) (compressed : list nat)
    (bitstream_bits : Z) : metrics :=
  let orig_size_bytes := utf8_len original in
  let comp_size_bits := length compressed * 8 in
  let comp_size_bytes := length compressed in
  let compression_ratio :=
    if comp_size_bytes =? 0 then Infinite
    else Quotient orig_size_bytes comp_size_bytes in
  {| original_size_bytes := orig_size_bytes;
     compressed_size_bytes := comp_size_bytes;
     compressed_size_bits := comp_size_bits;
     bitstream_bits := bitstream_bits;
     compression_ratio := compression_ratio |}.

(** ** [bytes_to_hex] *)

Definition hex_digit (d : nat) : ascii :=
  match d with
  | 0 => "0" | 1 => "1" | 2 => "2" | 3 => "3" | 4 => "4" | 5 => "5"
  | 6 => "6" | 7 => "7" | 8 => "8" | 9 => "9" | 10 => "a" | 11 => "b"
  | 12 => "c" | 13 => "d" | 14 => "e" | _ => "f"
  end%char.

Fixpoint hex_fuel (fuel n : nat) (acc : string) : string :=
  match fuel with
  | 0 => acc
  | S fuel' =>
      let acc := String (hex_digit (n mod 16)) acc in
      if n <? 16 then acc else hex_fuel fuel' (n / 16) acc
  end.

(** [format(n, 'x')]: the lowercase hexadecimal digits of [n]. *)
Definition hex (n : nat) : string := hex_fuel (S n) n EmptyString.

(** [format(n, '0wx')]. *)
Definition format_x (w n : nat) : string :=
  let s := hex n in str_repeat "0" (w - String.length s) +:+ s.

(** [sep.join(l)]. *)
Fixpoint join (sep : string) (l : list string) : string :=
  match l with
  | [] => EmptyString
  | [x] => x
  | x :: l' => x +:+ sep +:+ join sep l'
  end.

Definition bytes_to_hex (compressed : list nat) : string :=
  join "," ((fun byte => "0x" +:+ format_x 2 byte) <$> compressed).

(** ** The hex input of [main] in decode mode

    Every failure of this part of [main] is a [ValueError]; it is [None]
    here. *)

Definition hex_value (c : ascii) : option nat :=
  let n := nat_of_ascii c in
  if (48 <=? n) && (n <=? 57) then Some (n - 48)
  else if (97 <=? n) && (n <=? 102) then Some (n - 87)
  else if (65 <=? n) && (n <=? 70) then Some (n - 55)
  else None.

(** The blanks [int] and [bytes.fromhex] skip: the ASCII ones, and for
    [int] also the two blanks above 127. *)
Definition is_ascii_space (c : ascii) : bool :=
  let n := nat_of_ascii c in ((9 <=? n) && (n <=? 13)) || (n =? 32).

Definition is_int_space (c : ascii) : bool :=
  let n := nat_of_ascii c in is_ascii_space c || (n =? 133) || (n =? 160).

Fixpoint skip_spaces (space : ascii -> bool) (s : string) : string :=
  match s with
  | EmptyString => EmptyString
  | String c s' => if space c then skip_spaces space s' else s
  end.

(** The digits of [int(s, 16)]: hexadecimal digits with single underscores
    between them; returns the value, the number of digits and what follows. *)
Fixpoint scan_digits (acc : nat) (after_underscore : bool) (digits : nat)
    (s : string) : option (nat * nat * string) :=
  match s with
  | EmptyString => if after_underscore then None else Some (acc, digits, s)
  | String c s' =>
      if Ascii.eqb c "_" then
        if after_underscore then None else scan_digits acc true digits s'
      else
        match hex_value c with
        | Some d => scan_digits (16 * acc + d) false (S digits) s'
        | None => if after_underscore then None else Some (acc, digits, s)
        end
  end.

(** [int(s, 16)]: blanks, an optional sign, an optional [0x] or [0X] with
    one optional underscore after it, the digits, blanks. *)
Definition int16 (s : string) : option Z :=
  let s := skip_spaces is_int_space s in
  let '(negative, s) :=
    match s with
    | String "-" s' => (true, s')
    | String "+" s' => (false, s')
    | _ => (false, s)
    end in
  let s :=
    match s with
    | String "0" (String "x" s') | String "0" (String "X" s') =>
        match s' with
        | String "_" s'' => s''
        | _ => s'
        end
    | _ => s
    end in
  match s with
  | String "_" _ => None
  | _ =>
      match scan_digits 0 false 0 s with
      | Some (n, S _, rest) =>
          match skip_spaces is_int_space rest with
          | EmptyString => Some (if negative then (- Z.of_nat n)%Z else Z.of_nat n)
          | _ => None
          end
      | _ => None
      end
  end.

(** [bytearray(ints)]: every value has to be in [range(256)]. *)
Fixpoint bytearray (ints : list (option Z)) : option (list nat) :=
  match ints with
  | [] => Some []
  | None :: _ => None
  | Some z :: ints' =>
      if ((0 <=? z) && (z <? 256))%Z
      then cons (Z.to_nat z) <$> bytearray ints'
      else None
  end.

(** The loop of [bytes.fromhex] on a string of ASCII characters: blanks
    are skipped before each pair of hexadecimal digits. *)
Fixpoint fromhex_loop (fuel : nat) (s : string) : option (list nat) :=
  match fuel with
  | 0 => None
  | S fuel' =>
      match skip_spaces is_ascii_space s with
      | EmptyString => Some []
      | String c1 EmptyString => None
      | String c1 (String c2 s') =>
          match hex_value c1, hex_value c2 with
          | Some top, Some bot => cons (16 * top + bot) <$> fromhex_loop fuel' s'
          | _, _ => None
          end
      end
  end.

Fixpoint is_ascii (s : string) : bool :=
  match s with
  | EmptyString => true
  | String c s' => (nat_of_ascii c <? 128) && is_ascii s'
  end.

(** [bytes.fromhex(s)]. *)
Definition fromhex (s : string) : option (list nat) :=
  if is_ascii s then fromhex_loop (S (String.length s)) s else None.

Definition startswith (s p : string) : bool := String.prefix p s.

(** The bytes [main] reads from the file given with [--file]; [content] is
    what [f.read()] returned. *)
Definition read_hex_file (content : string) : option (list nat) :=
  let hex_input := strip content in
  if startswith hex_input "0x" then
    let hex_values := split "," hex_input in
    bytearray (int16 <$> hex_values)
  else fromhex hex_input.

(** The bytes [main] reads from the argument of [--text]. *)
Definition read_hex_text (text : string) : option (list nat) := fromhex text.

(** ** [main]: what each mode computes once its input has been read *)

(** Encode mode: the hex text and the bytes it writes, and the metrics it
    prints. *)
Definition encode_mode (t : TextCompressor) (text : string)
  : result (string * list nat * metrics) :=
  '(compressed, bitstream_bits) ← compress t text;
  let metrics := calculate_metrics (lower text) compressed bitstream_bits in
  let hex_output := bytes_to_hex compressed in
  Ok (hex_output, compressed, metrics).

(** Decode mode: the text it writes and the metrics it prints. *)
Definition decode_mode (t : TextCompressor) (compressed : list nat)
  : option (result (string * metrics)) :=
  match decompress t compressed with
  | None => None
  | Some (Raise e) => Some (Raise e)
  | Some (Ok decompressed) =>
      let bitstream_bits :=
        Z.of_nat (String.length decompressed * bits_per_char t) in
      Some (Ok (decompressed,
                calculate_metrics decompressed compressed bitstream_bits))
  end.

(** ** The table and [compress] over all code points

    The definitions above read a character as a code point below 256, where
    [str.lower] keeps the length of a string.  This module is the same code
    of [__init__] and [compress] with a Python [str] as the list of its code
    points, for texts that leave that range.  [str.lower] is given on the
    code points below 256, on U+0130 (capital I with dot above, whose
    lowercase is the two code points i and U+0307) and on U+0307; a string
    with any other code point is outside this module, and its functions
    return [None] on it. *)

Module Wide.

(** A value of the [result] type above, taken apart. *)
Definition on_result {A B : Type} (r : result A) (ok : A -> B) (raise : exn -> B) : B :=
  match r with
  | Ok a => ok a
  | Raise e => raise e
  end.

Abbreviation packing_exn := exn.

Inductive exn : Type :=
| EmptyTable
| TableTooLarge (num_chars : nat)
| UnsupportedCharacter (char : N)
| KeyError (key : list N)
| Packing (e : packing_exn).        (* raised inside the packing loop *)

Inductive result (A : Type) : Type :=
| Ok (a : A)
| Raise (e : exn).
Arguments Ok {A} a.
Arguments Raise {A} e.

(** [str.isspace] on one code point. *)
Definition is_space (c : N) : bool :=
  ((if c <? 256 then is_space (ascii_of_N c) else false)
   || (c =? 5760) || ((8192 <=? c) && (c <=? 8202))
   || (c =? 8232) || (c =? 8233) || (c =? 8239) || (c =? 8287)
   || (c =? 12288))%N.

(** The line boundaries of [str.splitlines]. *)
Definition is_linebreak (c : N) : bool :=
  ((if c <? 256 then is_linebreak (ascii_of_N c) else false)
   || (c =? 8232) || (c =? 8233))%N.

Definition lower_char (c : N) : option (list N) :=
  (if c <? 256 then Some [N_of_ascii (lower_char (ascii_of_N c))]
   else if c =? 304 then Some [105; 775]
   else if c =? 775 then Some [775]
   else None)%N.

Fixpoint lower (s : list N) : option (list N) :=
  match s with
  | [] => Some []
  | c :: s' =>
      match lower_char c, lower s' with
      | Some l, Some r => Some (l ++ r)
      | _, _ => None
      end
  end.

Fixpoint lstrip (s : list N) : list N :=
  match s with
  | [] => []
  | c :: s' => if is_space c then lstrip s' else s
  end.

Fixpoint rstrip (s : list N) : list N :=
  match s with
  | [] => []
  | c :: s' =>
      match rstrip s' with
      | [] => if is_space c then [] else [c]
      | r => c :: r
      end
  end.

Definition strip (s : list N) : list N := rstrip (lstrip s).

Fixpoint split (sep : N) (s : list N) : list (list N) :=
  match s with
  | [] => [[]]
  | c :: s' =>
      if (c =? sep)%N then [] :: split sep s'
      else match split sep s' with
           | [] => [[c]]
           | x :: xs => (c :: x) :: xs
           end
  end.

Fixpoint splitlines (s : list N) : list (list N) :=
  match s with
  | [] => []
  | c :: s' =>
      if is_linebreak c then
        [] ::
          match s' with
          | c' :: s'' =>
              if ((c =? 13) && (c' =? 10))%N
              then splitlines s'' else splitlines s'
          | [] => []
          end
      else match splitlines s' with
           | [] => [[c]]
           | x :: xs => (c :: x) :: xs
           end
  end.

Record TextCompressor : Type := mkTextCompressor {
  char_set : list (list N);
  num_chars : nat;
  bits_per_char : nat;
  char_to_code : gmap (list N) string;
  code_to_char : gmap string (option (list N));
  eos_code : string
}.

(** The code points of the comma and of the word [space]. *)
Definition comma : N := 44%N.
Definition space_word : list N := [115; 112; 97; 99; 101]%N.

Definition table_entries (content : list N) : list (list N) :=
  let content := strip content in
  if existsb (N.eqb comma) content then split comma content
  else splitlines content.

Definition read_char_set (chars : list (list N)) : option (list (list N)) :=
  foldl (fun char_set char =>
           let char := strip char in
           match char with
           | [] => char_set
           | _ =>
               let char :=
                 if bool_decide (char = space_word) then [32%N] else char in
               match char_set, lower char with
               | Some char_set, Some char => Some (char_set ++ [char])
               | _, _ => None
               end
           end) (Some []) chars.

Definition build_char_to_code (bits : nat) (cs : list (list N))
  : gmap (list N) string :=
  foldl (fun d '(i, char) => <[char := format_b bits i]> d) ∅ (enumerate cs).

Definition invert (d : gmap (list N) string) : gmap string (option (list N)) :=
  map_fold (fun k v acc => <[v := Some k]> acc) ∅ d.

Definition build_table (cs : list (list N)) : result TextCompressor :=
  match cs with
  | [] => Raise EmptyTable
  | _ =>
      let num_chars := length cs in
      let bits_per_char := ceil_log2 (num_chars + 1) in
      if (5 <? bits_per_char)%nat then Raise (TableTooLarge num_chars)
      else
        let char_to_code := build_char_to_code bits_per_char cs in
        let code_to_char := invert char_to_code in
        let eos_code := format_b bits_per_char num_chars in
        Ok {| char_set := cs;
              num_chars := num_chars;
              bits_per_char := bits_per_char;
              char_to_code := char_to_code;
              code_to_char := <[eos_code := None]> code_to_char;
              eos_code := eos_code |}
  end.

Definition init (content : list N) : option (result TextCompressor) :=
  build_table <$> read_char_set (table_entries content).

Fixpoint validate (t : TextCompressor) (text : list N) : result unit :=
  match text with
  | [] => Ok tt
  | char :: text' =>
      match char_to_code t !! [char] with
      | None => Raise (UnsupportedCharacter char)
      | Some _ => validate t text'
      end
  end.

Fixpoint encode_chars (t : TextCompressor) (text : list N) (bitstream : string)
  : result string :=
  match text with
  | [] => Ok bitstream
  | char :: text' =>
      match char_to_code t !! [char] with
      | None => Raise (KeyError [char])
      | Some code => encode_chars t text' (bitstream +:+ code)
      end
  end.

(** [compress] after [text = text.lower()]; the packing loop is [pack]
    above. *)
Definition compress_lowered (t : TextCompressor) (text : list N)
  : result (list nat * Z) :=
  match validate t text with
  | Raise e => Raise e
  | Ok _ =>
      match encode_chars t text EmptyString with
      | Raise e => Raise e
      | Ok bitstream =>
          let bitstream := bitstream +:+ eos_code t in
          on_result (pack bitstream)
            (fun compressed =>
               Ok (compressed,
                   (Z.of_nat (String.length bitstream)
                    - Z.of_nat (bits_per_char t))%Z))
            (fun e => Raise (Packing e))
      end
  end.

Definition compress (t : TextCompressor) (text : list N)
  : option (result (list nat * Z)) :=
  compress_lowered t <$> lower text.

End Wide.

(** ** Vocabulary of the statements *)

(** A string of '0' and '1' only. *)
Fixpoint is_bits (s : string) : bool :=
  match s with
  | EmptyString => true
  | String c s' => (Ascii.eqb c "0" || Ascii.eqb c "1") && is_bits s'
  end.

(** The position of the last occurrence of [s] in a list whose first
    element has position [k]. *)
Fixpoint last_index_from (k : nat) (s : string) (cs : list string) : option nat :=
  match cs with
  | [] => None
  | x :: cs' =>
      match last_index_from (S k) s cs' with
      | Some i => Some i
      | None => if decide (x = s) then Some k else None
      end
  end.

Definition last_index (s : string) (cs : list string) : option nat :=
  last_index_from 0 s cs.

(** The characters of a string, in order. *)
Definition chars (s : string) : list ascii := list_ascii_of_string s.

(** The codes of the characters of a text, one after the other (nothing for
    a character without a code). *)
Fixpoint codes_of (t : TextCompressor) (text : string) : string :=
  match text with
  | EmptyString => EmptyString
  | String c text' =>
      default EmptyString (char_to_code t !! str c) +:+ codes_of t text'
  end.

(** Every character of [text] has a code in the forward map. *)
Definition supported (t : TextCompressor) (text : string) : Prop :=
  Forall (fun c => is_Some (char_to_code t !! str c)) (chars text).

Fixpoint str_concat (l : list string) : string :=
  match l with
  | [] => EmptyString
  | x :: l' => x +:+ str_concat l'
  end.

(** A full window that holds the code of the symbol [sym]. *)
Definition symbol_window (t : TextCompressor) (win : string * string) : Prop :=
  String.length win.1 = bits_per_char t ∧ win.1 ≠ eos_code t ∧
  code_to_char t !! win.1 = Some (Some win.2).

(** A full window that holds neither a symbol's code nor the EOS code. *)
Definition unassigned (t : TextCompressor) (code : string) : Prop :=
  String.length code = bits_per_char t ∧ code ≠ eos_code t ∧
  ∀ sym, code_to_char t !! code ≠ Some (Some sym).

(** The windows a text is encoded as: the code of each character, with the
    one-character string it stands for. *)
Definition windows_of (t : TextCompressor) (text : string) : list (string * string) :=
  (fun c => (default EmptyString (char_to_code t !! str c), str c)) <$> chars text.

(** The table of the three-symbol alphabet a, b, c. *)
Definition abc_table : TextCompressor :=
  {| char_set := ["a"; "b"; "c"];
     num_chars := 3;
     bits_per_char := 2;
     char_to_code := <["a" := "00"]> (<["b" := "01"]> (<["c" := "10"]> ∅));
     code_to_char :=
       <["00" := Some "a"]> (<["01" := Some "b"]> (<["10" := Some "c"]>
         (<["11" := None]> ∅)));
     eos_code := "11" |}.

(** The table of the two-symbol alphabet a, b: width 2, with the pattern
    11 left over. *)
Definition ab_table : TextCompressor :=
  {| char_set := ["a"; "b"];
     num_chars := 2;
     bits_per_char := 2;
     char_to_code := <["a" := "00"]> (<["b" := "01"]> ∅);
     code_to_char :=
       <["00" := Some "a"]> (<["01" := Some "b"]> (<["10" := None]> ∅));
     eos_code := "10" |}.

(** The table of the entries a, b, a: the second a takes the code of the
    first. *)
Definition aba_table : TextCompressor :=
  {| char_set := ["a"; "b"; "a"];
     num_chars := 3;
     bits_per_char := 2;
     char_to_code := <["a" := "10"]> (<["b" := "01"]> ∅);
     code_to_char :=
       <["10" := Some "a"]> (<["01" := Some "b"]> (<["11" := None]> ∅));
     eos_code := "11" |}.

(** Table files of 31 and of 32 one-character entries. *)
Definition content31 : string :=
  "space,e,t,a,o,i,n,s,h,r,d,l,c,u,m,w,f,g,y,p,b,v,k,j,x,q,z,.,!,?,-".
Definition content32 : string := content31 +:+ ",;".

(** What one entry of the table file becomes in [char_set], if anything. *)
Definition normalize (entry : string) : option string :=
  match strip entry with
  | EmptyString => None
  | char => Some (lower (if String.eqb char "space" then " " else char))
  end.

(** A string without blanks. *)
Fixpoint no_blank (s : string) : bool :=
  match s with
  | EmptyString => true
  | String c s' => negb (is_space c) && no_blank s'
  end.

(** The text of one byte in the hex output. *)
Definition hex_byte (byte : nat) : string := "0x" +:+ format_x 2 byte.

(** A string of code points below 256 as a list of code points, and the
    results of the functions above as results of [Wide]. *)
Definition embed (s : string) : list N := N_of_ascii <$> chars s.

Definition widen_exn (e : exn) : Wide.exn :=
  match e with
  | EmptyTable => Wide.EmptyTable
  | TableTooLarge n => Wide.TableTooLarge n
  | UnsupportedCharacter c => Wide.UnsupportedCharacter (N_of_ascii c)
  | KeyError key => Wide.KeyError (embed key)
  | _ => Wide.Packing e
  end.

Definition widen {A : Type} (r : result A) : Wide.result A :=
  match r with
  | Ok a => Wide.Ok a
  | Raise e => Wide.Raise (widen_exn e)
  end.

(** Two tables that [compress] cannot tell apart on code points below 256. *)
Definition same_codes (t : TextCompressor) (wt : Wide.TextCompressor) : Prop :=
  (∀ s, Wide.char_to_code wt !! embed s = char_to_code t !! s) ∧
  Wide.eos_code wt = eos_code t ∧
  Wide.bits_per_char wt = bits_per_char t.

(** * Properties *)

(** ** Strings *)

Lemma str_app_nil_l (s : string) : EmptyString +:+ s = s.
Proof. reflexivity. Qed.

Lemma str_app_cons (x : ascii) (a b : string) :
  String x a +:+ b = String x (a +:+ b).
Proof. reflexivity. Qed.

(** stdpp keeps [+:+] folded under [simpl]; this unfolds it on
    constructors. *)
Ltac str_simpl := rewrite ?str_app_nil_l, ?str_app_cons; simpl.

Section strings.
Implicit Types (s a b c : string) (i n : nat).

Lemma str_app_nil_r s : s +:+ EmptyString = s.
Proof. induction s as [|x s IH]; str_simpl; [done|]. by rewrite IH. Qed.

Lemma str_app_assoc a b c : (a +:+ b) +:+ c = a +:+ (b +:+ c).
Proof. induction a as [|x a IH]; str_simpl; [done|]. by rewrite IH. Qed.

Lemma str_length_app a b :
  String.length (a +:+ b) = String.length a + String.length b.
Proof. induction a as [|x a IH]; str_simpl; [done|]. by rewrite IH. Qed.

Lemma str_length_repeat x n : String.length (str_repeat x n) = n.
Proof. induction n as [|n IH]; simpl; [done|]. by rewrite IH. Qed.

Lemma str_repeat_add x n m :
  str_repeat x (n + m) = str_repeat x n +:+ str_repeat x m.
Proof. induction n as [|n IH]; str_simpl; [done|]. by rewrite IH. Qed.

Lemma str_length_lower s : String.length (lower s) = String.length s.
Proof. induction s as [|x s IH]; simpl; [done|]. by rewrite IH. Qed.

Lemma slice_length s i n :
  String.length (slice s i n) = Nat.min n (String.length s - i).
Proof.
  unfold slice. revert i n.
  induction s as [|x s IH]; intros [|i] [|n];
    cbn [substring String.length]; rewrite ?IH; lia.
Qed.

Lemma slice_app_skip a b n :
  slice (a +:+ b) (String.length a) n = slice b 0 n.
Proof. unfold slice. induction a as [|x a IH]; str_simpl; done. Qed.

Lemma slice_0_exact c b : slice (c +:+ b) 0 (String.length c) = c.
Proof.
  unfold slice. induction c as [|x c IH]; str_simpl.
  - by destruct b.
  - by rewrite IH.
Qed.

Lemma slice_app_l a b i n :
  i + n ≤ String.length a → slice (a +:+ b) i n = slice a i n.
Proof.
  unfold slice. revert i n.
  induction a as [|x a IH]; intros [|i] [|n]; str_simpl; intros Hle;
    try done; try lia.
  - by destruct b.
  - rewrite (IH 0 n); [done|lia].
  - apply IH. lia.
  - apply IH. lia.
Qed.

(** A window of [n] characters that starts right after [a] and lies
    inside [c]. *)
Lemma slice_window a c b :
  slice (a +:+ c +:+ b) (String.length a) (String.length c) = c.
Proof. by rewrite slice_app_skip, slice_0_exact. Qed.
Lemma slice_all s : slice s 0 (String.length s) = s.
Proof.
  pose proof (slice_0_exact s EmptyString) as H.
  by rewrite str_app_nil_r in H.
Qed.

Lemma slice_short s n : String.length s ≤ n → slice s 0 n = s.
Proof.
  unfold slice. revert n. induction s as [|x s IH]; intros [|n]; simpl;
    intros Hle; try done; try lia.
  rewrite IH; [done|lia].
Qed.

Lemma slice_split s n :
  s = slice s 0 n +:+ slice s n (String.length s - n).
Proof.
  revert n. induction s as [|x s IH]; intros [|n]; try done.
  - rewrite Nat.sub_0_r. unfold slice at 1. simpl substring at 1.
    by rewrite str_app_nil_l, slice_all.
  - unfold slice. simpl. str_simpl. f_equal. apply IH.
Qed.
End strings.

(** ** Bit patterns *)

Section bits.
Implicit Types (s a b : string) (p : positive) (n w : nat).

Lemma is_bits_app a b : is_bits (a +:+ b) = is_bits a && is_bits b.
Proof.
  induction a as [|x a IH]; str_simpl; [done|].
  by rewrite IH, andb_assoc.
Qed.

Lemma is_bits_repeat_0 n : is_bits (str_repeat "0" n) = true.
Proof. induction n as [|n IH]; simpl; done. Qed.

Lemma is_bits_bin_pos p a : is_bits a = true → is_bits (bin_pos p a) = true.
Proof.
  revert a. induction p as [p IH|p IH|]; intros a Ha; simpl; auto.
Qed.

Lemma is_bits_bin n : is_bits (bin n) = true.
Proof. unfold bin. destruct (N.of_nat n); [done|]. by apply is_bits_bin_pos. Qed.

Lemma is_bits_format_b w n : is_bits (format_b w n) = true.
Proof.
  unfold format_b. by rewrite is_bits_app, is_bits_repeat_0, is_bits_bin.
Qed.

Lemma length_bin_pos p a :
  String.length (bin_pos p a) = Pos.size_nat p + String.length a.
Proof.
  revert a. induction p as [p IH|p IH|]; intros a; simpl; [| |done];
    rewrite IH; simpl; lia.
Qed.

Lemma size_nat_bound p w : Pos.to_nat p < 2 ^ w → Pos.size_nat p ≤ w.
Proof.
  revert w. induction p as [p IH|p IH|]; intros [|w];
    rewrite ?Pos2Nat.inj_xI, ?Pos2Nat.inj_xO; simpl; intros Hlt; try lia.
  - specialize (IH w). lia.
  - specialize (IH w). lia.
Qed.

Lemma length_bin n w : 1 ≤ w → n < 2 ^ w → String.length (bin n) ≤ w.
Proof.
  intros Hw Hn. unfold bin. destruct (N.of_nat n) as [|p] eqn:Hp; simpl; [done|].
  rewrite length_bin_pos. simpl. rewrite Nat.add_0_r.
  apply size_nat_bound. replace (Pos.to_nat p) with n; [done|]. lia.
Qed.

Lemma length_format_b w n :
  1 ≤ w → n < 2 ^ w → String.length (format_b w n) = w.
Proof.
  intros Hw Hn. pose proof (length_bin n w Hw Hn). unfold format_b.
  rewrite str_length_app, str_length_repeat. lia.
Qed.

Lemma int2_digits_zeros k acc s :
  int2_digits acc (str_repeat "0" k +:+ s)
  = int2_digits (2 ^ k * acc) s.
Proof.
  revert acc. induction k as [|k IH]; intros acc; str_simpl.
  - by rewrite Nat.add_0_r.
  - rewrite IH. f_equal. lia.
Qed.

Lemma int2_digits_bin_pos p a :
  int2_digits 0 (bin_pos p a) = int2_digits (Pos.to_nat p) a.
Proof.
  revert a. induction p as [p IH|p IH|]; intros a; simpl; [| |done];
    rewrite IH; simpl; f_equal; lia.
Qed.

(** Parsing a formatted number gives the number back, at any width. *)
Lemma int2_digits_format_b w n : int2_digits 0 (format_b w n) = Some n.
Proof.
  unfold format_b. rewrite int2_digits_zeros, Nat.mul_0_r. unfold bin.
  destruct (N.of_nat n) as [|p] eqn:Hp.
  - simpl. f_equal. lia.
  - rewrite int2_digits_bin_pos. simpl. f_equal. lia.
Qed.

Lemma format_b_inj w n m : format_b w n = format_b w m → n = m.
Proof.
  intros Heq. pose proof (int2_digits_format_b w n) as Hn.
  rewrite Heq, int2_digits_format_b in Hn. congruence.
Qed.

(** The value of a bit pattern: the accumulator shifted, plus a value
    below [2 ^ length]. *)
Lemma int2_digits_spec s :
  is_bits s = true →
  ∃ v, v < 2 ^ String.length s ∧
       ∀ acc, int2_digits acc s = Some (acc * 2 ^ String.length s + v).
Proof.
  induction s as [|x s IH]; simpl; intros Hb.
  - exists 0. split; [lia|]. intros acc. f_equal. lia.
  - apply andb_prop in Hb as [Hx Hs]. destruct (IH Hs) as (v & Hv & Hacc).
    destruct (Ascii.eqb x "0") eqn:H0.
    + exists v. split; [lia|]. intros acc. rewrite Hacc. f_equal. lia.
    + simpl in Hx. rewrite Hx. exists (2 ^ String.length s + v).
      split; [lia|]. intros acc. rewrite Hacc. f_equal. lia.
Qed.

Lemma bit_char_cases (x : ascii) :
  Ascii.eqb x "0" || Ascii.eqb x "1" = true → x = "0"%char ∨ x = "1"%char.
Proof.
  intros [H|H]%orb_prop; apply Ascii.eqb_eq in H; auto.
Qed.

Lemma int2_digits_inj a b :
  is_bits a = true → is_bits b = true →
  String.length a = String.length b →
  int2_digits 0 a = int2_digits 0 b → a = b.
Proof.
  revert b. induction a as [|x a IH]; intros [|y b]; simpl; try done.
  intros Ha Hb Hlen Heq.
  apply andb_prop in Ha as [Hx Ha]. apply andb_prop in Hb as [Hy Hb].
  destruct (int2_digits_spec a Ha) as (va & Hva & Hacca).
  destruct (int2_digits_spec b Hb) as (vb & Hvb & Haccb).
  assert (String.length a = String.length b) as Hl by lia.
  rewrite Hl in Hva, Hacca.
  assert (x = y ∧ va = vb) as [-> ->].
  { destruct (bit_char_cases x Hx) as [-> | ->],
      (bit_char_cases y Hy) as [-> | ->]; simpl in Heq;
      rewrite Hacca, Haccb in Heq; injection Heq as Heq; split; (done || lia). }
  f_equal. apply IH; [done..|]. by rewrite Hacca, Haccb.
Qed.

(** Formatting a parsed bit pattern at its own width gives it back. *)
Lemma format_b_int2 s n :
  is_bits s = true → 1 ≤ String.length s →
  int2_digits 0 s = Some n →
  n < 2 ^ String.length s ∧ format_b (String.length s) n = s.
Proof.
  intros Hb Hlen Hn. destruct (int2_digits_spec s Hb) as (v & Hv & Hacc).
  rewrite Hacc in Hn. assert (n = v) as -> by (simplify_eq; lia).
  split; [done|]. apply int2_digits_inj.
  - apply is_bits_format_b.
  - done.
  - by apply length_format_b.
  - rewrite int2_digits_format_b, Hacc; f_equal; lia.
Qed.
End bits.

(** ** The table *)

Section log2.
Implicit Types (n w : nat).

Lemma ceil_log2_upper n : 1 ≤ n → n + 1 ≤ 2 ^ ceil_log2 (n + 1).
Proof. intros Hn. apply Nat.log2_up_spec. lia. Qed.

Lemma ceil_log2_least n w : 1 ≤ n → n + 1 ≤ 2 ^ w → ceil_log2 (n + 1) ≤ w.
Proof. intros Hn Hw. apply Nat.log2_up_le_pow2; [lia|done]. Qed.

Lemma ceil_log2_pos n : 1 ≤ n → 1 ≤ ceil_log2 (n + 1).
Proof. intros Hn. apply Nat.log2_up_pos. lia. Qed.

Lemma ceil_log2_le_5 n : 1 ≤ n → ceil_log2 (n + 1) ≤ 5 ↔ n ≤ 31.
Proof.
  intros Hn. unfold ceil_log2.
  rewrite <- Nat.log2_up_le_pow2 by lia. simpl. lia.
Qed.
End log2.

Section dicts.
Implicit Types (cs : list string) (s : string) (i k w : nat).

Lemma last_index_from_None k s cs :
  last_index_from k s cs = None ↔ s ∉ cs.
Proof.
  revert k. induction cs as [|x cs IH]; intros k; simpl.
  - split; [intros _; apply not_elem_of_nil|done].
  - rewrite not_elem_of_cons. specialize (IH (S k)).
    destruct (last_index_from (S k) s cs).
    + split; [done|]. intros [_ Hnot]. by apply IH in Hnot.
    + destruct (decide (x = s)) as [Heq|Hne]; split; try done.
      * intros [Hxs _]. by destruct Hxs.
      * intros _. split; [congruence|]. by apply IH.
Qed.

Lemma last_index_from_Some k s cs i :
  last_index_from k s cs = Some i →
  k ≤ i ∧ cs !! (i - k) = Some s ∧ ∀ j, i - k < j → cs !! j ≠ Some s.
Proof.
  revert k. induction cs as [|x cs IH]; intros k; simpl; [done|].
  destruct (last_index_from (S k) s cs) as [i'|] eqn:Hrec.
  - intros [= ->]. destruct (IH _ Hrec) as (Hle & Hi & Hlast).
    split; [lia|]. replace (i - k) with (S (i - S k)) by lia.
    split; [done|]. intros [|j] Hj; [lia|]. simpl. apply Hlast. lia.
  - destruct (decide (x = s)) as [->|]; [|done]. intros [= ->].
    rewrite Nat.sub_diag. split; [done|]. split; [done|].
    intros [|j] Hj; [lia|]. simpl. intros Hin.
    apply last_index_from_None in Hrec. apply Hrec.
    apply list_elem_of_lookup. by exists j.
Qed.

(** [char_to_code] after the comprehension: the code of a symbol is the
    pattern of its last position. *)
Lemma foldl_insert_lookup w (m0 : gmap string string) k cs s :
  foldl (fun d '(i, char) => <[char := format_b w i]> d) m0
    (enumerate_from k cs) !! s
  = match last_index_from k s cs with
    | Some i => Some (format_b w i)
    | None => m0 !! s
    end.
Proof.
  revert m0 k. induction cs as [|x cs IH]; intros m0 k; simpl; [done|].
  rewrite IH. destruct (last_index_from (S k) s cs); [done|].
  destruct (decide (x = s)) as [->|Hne].
  - by rewrite lookup_insert_eq.
  - by rewrite lookup_insert_ne.
Qed.

Lemma build_char_to_code_lookup w cs s :
  build_char_to_code w cs !! s = format_b w <$> last_index s cs.
Proof.
  unfold build_char_to_code, enumerate, last_index.
  rewrite foldl_insert_lookup. by destruct (last_index_from 0 s cs).
Qed.

(** The reversed dict holds exactly the pairs of the forward one. *)
Lemma invert_lookup (d : gmap string string) (v : string) :
  match invert d !! v with
  | Some (Some key) => d !! key = Some v
  | Some None => False
  | None => ∀ key : string, d !! key ≠ Some v
  end.
Proof.
  unfold invert. revert v.
  apply (map_fold_weak_ind
           (fun acc (m : gmap string string) => ∀ v,
              match acc !! v with
              | Some (Some key) => m !! key = Some v
              | Some None => False
              | None => ∀ key : string, m !! key ≠ Some v
              end)).
  - intros v. rewrite lookup_empty. intros key. by rewrite lookup_empty.
  - intros key x m r Hi IH v. destruct (decide (x = v)) as [->|Hne].
    + by rewrite !lookup_insert_eq.
    + rewrite lookup_insert_ne by done. specialize (IH v).
      destruct (r !! v) as [[key'|]|]; [|done|].
      * rewrite lookup_insert_ne; [done|]. intros ->. congruence.
      * intros key'. destruct (decide (key = key')) as [->|Hik].
        -- rewrite lookup_insert_eq. congruence.
        -- rewrite lookup_insert_ne by done. apply IH.
Qed.
End dicts.

(** What [build_table] returns, and when. *)
Lemma build_table_Ok (cs : list string) (t : TextCompressor) :
  build_table cs = Ok t ↔
  1 ≤ length cs ≤ 31 ∧
  t = let w := ceil_log2 (length cs + 1) in
      let d := build_char_to_code w cs in
      {| char_set := cs; num_chars := length cs; bits_per_char := w;
         char_to_code := d;
         code_to_char := <[format_b w (length cs) := None]> (invert d);
         eos_code := format_b w (length cs) |}.
Proof.
  unfold build_table. destruct cs as [|x cs]; [simpl; split; [done|lia]|].
  set (l := x :: cs). assert (1 ≤ length l) as Hl by (simpl; lia).
  pose proof (ceil_log2_le_5 (length l) Hl) as H5.
  destruct (5 <? ceil_log2 (length l + 1)) eqn:Hlt.
  - apply Nat.ltb_lt in Hlt. split; [done|]. intros [? _]. lia.
  - apply Nat.ltb_ge in Hlt. split.
    + intros [= <-]. split; [lia|done].
    + by intros [_ ->].
Qed.

Lemma build_table_Raise (cs : list string) (e : exn) :
  build_table cs = Raise e ↔
  (cs = [] ∧ e = EmptyTable) ∨ (31 < length cs ∧ e = TableTooLarge (length cs)).
Proof.
  unfold build_table. destruct cs as [|x cs].
  { simpl. split; [intros [= <-]; by left|]. intros [[_ ->]|[? _]]; [done|lia]. }
  set (l := x :: cs). assert (1 ≤ length l) as Hl by (simpl; lia).
  pose proof (ceil_log2_le_5 (length l) Hl) as H5.
  destruct (5 <? ceil_log2 (length l + 1)) eqn:Hlt.
  - apply Nat.ltb_lt in Hlt. split.
    + intros [= <-]. right. split; [lia|done].
    + intros [[? _]|[_ ->]]; done.
  - apply Nat.ltb_ge in Hlt. split; [done|]. intros [[? _]|[? _]]; [done|lia].
Qed.

Section table.
Context (cs : list string) (t : TextCompressor).
Hypothesis Hbuild : build_table cs = Ok t.
Implicit Types (s code : string).

Local Abbreviation w := (bits_per_char t).

Lemma table_char_set : char_set t = cs.
Proof using Hbuild. apply build_table_Ok in Hbuild as [_ ->]. done. Qed.

Lemma table_num_chars : num_chars t = length cs.
Proof using Hbuild. apply build_table_Ok in Hbuild as [_ ->]. done. Qed.

Lemma table_size : 1 ≤ num_chars t ≤ 31.
Proof using Hbuild. rewrite table_num_chars. by apply build_table_Ok in Hbuild as [? _]. Qed.

Lemma table_bits : bits_per_char t = ceil_log2 (num_chars t + 1).
Proof using Hbuild. apply build_table_Ok in Hbuild as [_ ->]. done. Qed.

Lemma table_bits_range : 1 ≤ w ≤ 5.
Proof using Hbuild.
  rewrite table_bits. pose proof table_size. split.
  - apply ceil_log2_pos. lia.
  - apply ceil_log2_le_5; lia.
Qed.

Lemma table_capacity : num_chars t < 2 ^ w.
Proof using Hbuild.
  rewrite table_bits. pose proof table_size.
  pose proof (ceil_log2_upper (num_chars t)). lia.
Qed.

Lemma table_eos : eos_code t = format_b w (num_chars t).
Proof using Hbuild. apply build_table_Ok in Hbuild as [_ ->]. done. Qed.

Lemma table_eos_length : String.length (eos_code t) = w.
Proof using Hbuild.
  rewrite table_eos. apply length_format_b;
    [apply table_bits_range | apply table_capacity].
Qed.

Lemma table_char_to_code s :
  char_to_code t !! s = format_b w <$> last_index s cs.
Proof using Hbuild.
  apply build_table_Ok in Hbuild as [_ ->]. simpl.
  apply build_char_to_code_lookup.
Qed.

(** A symbol's code is the pattern of a position below [num_chars]. *)
Lemma table_code_index s code :
  char_to_code t !! s = Some code →
  ∃ i, last_index s cs = Some i ∧ i < num_chars t ∧ code = format_b w i.
Proof using Hbuild.
  rewrite table_char_to_code. destruct (last_index s cs) as [i|] eqn:Hi; [|done].
  intros [= <-]. exists i. split; [done|]. split; [|done].
  apply last_index_from_Some in Hi as (_ & Hi & _).
  rewrite table_num_chars. apply lookup_lt_Some in Hi. lia.
Qed.

Lemma table_code_length s code :
  char_to_code t !! s = Some code → String.length code = w.
Proof using Hbuild.
  intros (i & _ & Hi & ->)%table_code_index.
  apply length_format_b; [apply table_bits_range|].
  pose proof table_capacity. lia.
Qed.

Lemma table_code_bits s code :
  char_to_code t !! s = Some code → is_bits code = true.
Proof using Hbuild.
  intros (i & _ & _ & ->)%table_code_index. apply is_bits_format_b.
Qed.

Lemma table_code_not_eos s code :
  char_to_code t !! s = Some code → code ≠ eos_code t.
Proof using Hbuild.
  intros (i & _ & Hi & ->)%table_code_index. rewrite table_eos.
  intros Heq%format_b_inj. lia.
Qed.

Lemma table_code_inj s1 s2 code :
  char_to_code t !! s1 = Some code → char_to_code t !! s2 = Some code →
  s1 = s2.
Proof using Hbuild.
  intros (i1 & H1 & _ & ->)%table_code_index (i2 & H2 & _ & Heq)%table_code_index.
  apply format_b_inj in Heq as ->.
  apply last_index_from_Some in H1 as (_ & H1 & _).
  apply last_index_from_Some in H2 as (_ & H2 & _). congruence.
Qed.

Lemma table_code_to_char :
  code_to_char t = <[eos_code t := None]> (invert (char_to_code t)).
Proof using Hbuild. apply build_table_Ok in Hbuild as [_ ->]. done. Qed.

Lemma table_lookup_eos : code_to_char t !! eos_code t = Some None.
Proof using Hbuild. rewrite table_code_to_char. apply lookup_insert_eq. Qed.

(** The reverse map is the exact inverse of the forward one, plus EOS. *)
Lemma table_reverse s code :
  code_to_char t !! code = Some (Some s) ↔ char_to_code t !! s = Some code.
Proof using Hbuild.
  rewrite table_code_to_char. split.
  - intros Hl. destruct (decide (eos_code t = code)) as [<-|Hne].
    { by rewrite lookup_insert_eq in Hl. }
    rewrite lookup_insert_ne in Hl by done.
    pose proof (invert_lookup (char_to_code t) code) as Hinv.
    by rewrite Hl in Hinv.
  - intros Hs. pose proof (table_code_not_eos _ _ Hs) as Hne.
    rewrite lookup_insert_ne by done.
    pose proof (invert_lookup (char_to_code t) code) as Hinv.
    destruct (invert (char_to_code t) !! code) as [[s'|]|]; [|done|].
    + f_equal. f_equal. by eapply table_code_inj.
    + by destruct (Hinv s).
Qed.

Lemma table_marker code :
  code_to_char t !! code = Some None ↔ code = eos_code t.
Proof using Hbuild.
  split; [|intros ->; apply table_lookup_eos].
  rewrite table_code_to_char. intros Hl.
  destruct (decide (eos_code t = code)) as [<-|Hne]; [done|].
  rewrite lookup_insert_ne in Hl by done.
  pose proof (invert_lookup (char_to_code t) code) as Hinv.
  by rewrite Hl in Hinv.
Qed.

Lemma table_unassigned code :
  code_to_char t !! code = None ↔
  code ≠ eos_code t ∧ ∀ s, char_to_code t !! s ≠ Some code.
Proof using Hbuild.
  split.
  - intros Hnone. split.
    + intros ->. by rewrite table_lookup_eos in Hnone.
    + intros s Hs%table_reverse. congruence.
  - intros [Hne Hall]. destruct (code_to_char t !! code) as [[s|]|] eqn:Hl; [| |done].
    + apply table_reverse in Hl. by destruct (Hall s).
    + by apply table_marker in Hl.
Qed.
End table.

(** ** Encoding *)

Section encode.
Context (t : TextCompressor).
Implicit Types (text acc bitstream : string) (c : ascii).

Lemma supported_cons c text :
  supported t (String c text) ↔
  is_Some (char_to_code t !! str c) ∧ supported t text.
Proof.
  unfold supported, chars. simpl.
  apply (Forall_cons (fun c => is_Some (char_to_code t !! str c))).
Qed.

Lemma validate_Ok text : validate t text = Ok tt ↔ supported t text.
Proof.
  induction text as [|c text IH]; simpl.
  - split; [intros _; apply Forall_nil_2|done].
  - rewrite supported_cons. destruct (char_to_code t !! str c) as [code|].
    + rewrite IH. split; [by eauto|by intros [_ ?]].
    + split; [done|]. by intros [[? [=]] _].
Qed.

(** The validation loop stops at the first character without a code. *)
Lemma validate_Raise text e :
  validate t text = Raise e ↔
  ∃ pre c post, text = pre +:+ String c post ∧ supported t pre ∧
                char_to_code t !! str c = None ∧ e = UnsupportedCharacter c.
Proof.
  induction text as [|c text IH]; simpl.
  - split; [done|]. intros ([|? ?] & ? & ? & Heq & _); discriminate Heq.
  - destruct (char_to_code t !! str c) as [code|] eqn:Hc.
    + rewrite IH. split.
      * intros (pre & c' & post & -> & Hpre & Hc' & ->).
        exists (String c pre), c', post. split; [done|].
        split; [|done]. apply supported_cons. eauto.
      * intros ([|x pre] & c' & post & Heq & Hpre & Hc' & ->).
        { injection Heq as -> _. congruence. }
        injection Heq as -> ->. apply supported_cons in Hpre as [_ Hpre].
        by exists pre, c', post.
    + split.
      * intros [= <-]. exists EmptyString, c, text.
        split; [done|]. split; [apply Forall_nil_2|done].
      * intros ([|x pre] & c' & post & Heq & Hpre & Hc' & ->).
        { by injection Heq as -> _. }
        injection Heq as -> ->. apply supported_cons in Hpre as [[? Hx] _].
        congruence.
Qed.

Lemma encode_chars_Ok text acc :
  supported t text → encode_chars t text acc = Ok (acc +:+ codes_of t text).
Proof.
  revert acc. induction text as [|c text IH]; intros acc Hs; simpl.
  - by rewrite str_app_nil_r.
  - apply supported_cons in Hs as [[code Hc] Hs]. rewrite Hc. simpl.
    rewrite IH by done. by rewrite str_app_assoc.
Qed.

Lemma encode_bits_Ok text :
  supported t (lower text) →
  encode_bits t text = Ok (codes_of t (lower text) +:+ eos_code t).
Proof.
  intros Hs. unfold encode_bits.
  rewrite (proj2 (validate_Ok _) Hs). simpl.
  by rewrite encode_chars_Ok.
Qed.

Lemma encode_bits_Raise text e :
  encode_bits t text = Raise e ↔ validate t (lower text) = Raise e.
Proof.
  unfold encode_bits. destruct (validate t (lower text)) as [[]|e'] eqn:Hv; simpl.
  - apply validate_Ok in Hv. rewrite encode_chars_Ok by done. simpl. done.
  - split; intros [= ->]; done.
Qed.
End encode.

(** ** Packing into bytes and back *)

Section pack.
Implicit Types (s pre rest acc bitstream : string) (bytes : list nat).

Lemma is_bits_slice s i n : is_bits s = true → is_bits (slice s i n) = true.
Proof.
  unfold slice. revert i n.
  induction s as [|x s IH]; intros [|i] [|n]; simpl; try done.
  - intros [-> Hs]%andb_prop. simpl. by apply IH.
  - intros [_ Hs]%andb_prop. by apply IH.
  - intros [_ Hs]%andb_prop. by apply IH.
Qed.

Lemma unpack_acc bytes acc :
  unpack bytes acc = acc +:+ unpack bytes EmptyString.
Proof.
  revert acc. induction bytes as [|b bytes IH]; intros acc; simpl.
  - by rewrite str_app_nil_r.
  - rewrite IH, (IH (EmptyString +:+ _)). by rewrite str_app_nil_l, str_app_assoc.
Qed.

Lemma unpack_cons b bytes :
  unpack (b :: bytes) EmptyString = format_b 8 b +:+ unpack bytes EmptyString.
Proof. simpl. by rewrite unpack_acc. Qed.

Lemma unpack_app bytes1 bytes2 :
  unpack (bytes1 ++ bytes2) EmptyString
  = unpack bytes1 EmptyString +:+ unpack bytes2 EmptyString.
Proof.
  induction bytes1 as [|b bytes1 IH]; [done|].
  rewrite <-app_comm_cons, !unpack_cons, IH. by rewrite str_app_assoc.
Qed.

Lemma unpack_zeros k :
  unpack (replicate k 0) EmptyString = str_repeat "0" (8 * k).
Proof.
  induction k as [|k IH]; [done|].
  cbn [replicate]. rewrite unpack_cons, IH.
  replace (8 * S k) with (8 + 8 * k) by lia. by rewrite str_repeat_add.
Qed.

Lemma is_bits_unpack bytes : is_bits (unpack bytes EmptyString) = true.
Proof.
  induction bytes as [|b bytes IH]; [done|].
  by rewrite unpack_cons, is_bits_app, is_bits_format_b, IH.
Qed.

(** Every window of an unpacked buffer is a bit pattern. *)
Lemma unpack_window_bits bytes i n :
  is_bits (slice (unpack bytes EmptyString) i n) = true.
Proof. apply is_bits_slice, is_bits_unpack. Qed.

(** One step of the packing loop on a stream of bits: the byte, written
    back as eight bits, is the next chunk with its zero padding. *)
Lemma pack_byte_spec pre rest :
  is_bits rest = true → 1 ≤ String.length rest →
  ∃ n, pack_byte (pre +:+ rest) (String.length pre) = Ok n ∧
       format_b 8 n
       = slice rest 0 8 +:+ str_repeat "0" (8 - String.length (slice rest 0 8)).
Proof.
  intros Hb Hlen. unfold pack_byte. rewrite slice_app_skip.
  set (chunk := slice rest 0 8).
  assert (String.length chunk = Nat.min 8 (String.length rest)) as Hc.
  { unfold chunk. rewrite slice_length. lia. }
  assert (pad_bits chunk = 8 - String.length chunk) as ->.
  { unfold pad_bits. destruct (String.length chunk <? 8) eqn:E; [done|].
    apply Nat.ltb_ge in E. lia. }
  set (padded := chunk +:+ str_repeat "0" (8 - String.length chunk)).
  assert (String.length padded = 8) as Hp.
  { unfold padded. rewrite str_length_app, str_length_repeat. lia. }
  assert (is_bits padded = true) as Hpb.
  { unfold padded. rewrite is_bits_app, is_bits_repeat_0.
    unfold chunk. by rewrite is_bits_slice. }
  destruct (int2_digits_spec padded Hpb) as (v & Hv & Hacc).
  assert (int2_digits 0 padded = Some v) as Hint.
  { rewrite Hacc. f_equal. }
  destruct (format_b_int2 padded v Hpb) as [Hlt Hfmt]; [lia|done|].
  rewrite Hp in Hlt, Hfmt. change (2 ^ 8) with 256 in Hlt.
  exists v. split; [|done]. unfold int2.
  destruct padded as [|x padded']; [done|]. rewrite Hint. simpl.
  by apply Nat.ltb_lt in Hlt as ->.
Qed.

Lemma pack_loop_spec fuel pre rest (compressed : list nat) :
  is_bits rest = true → String.length rest ≤ fuel →
  ∃ bytes,
    pack_loop (pre +:+ rest)
      (range_fuel fuel (String.length pre) (String.length (pre +:+ rest)) 8)
      compressed = Ok (compressed ++ bytes) ∧
    length bytes = (String.length rest + 7) / 8 ∧
    unpack bytes EmptyString
    = rest +:+ str_repeat "0" (8 * length bytes - String.length rest).
Proof.
  revert pre rest compressed.
  induction fuel as [|fuel IH]; intros pre rest compressed Hb Hfuel.
  { destruct rest; [|simpl in Hfuel; lia]. exists []. simpl.
    by rewrite app_nil_r. }
  cbn [range_fuel]. rewrite str_length_app.
  destruct (String.length pre <? String.length pre + String.length rest) eqn:E.
  2:{ apply Nat.ltb_ge in E. destruct rest; [|simpl in E; lia].
      exists []. simpl. by rewrite app_nil_r. }
  apply Nat.ltb_lt in E.
  destruct (pack_byte_spec pre rest Hb) as (n & Hn & Hfmt); [lia|].
  cbn [pack_loop]. rewrite Hn. simpl mbind.
  pose proof (slice_length rest 0 8) as Hc. rewrite Nat.sub_0_r in Hc.
  destruct (decide (String.length rest ≤ 8)) as [Hshort|Hlong].
  - (* the last byte *)
    assert (range_fuel fuel (String.length pre + 8)
              (String.length pre + String.length rest) 8 = []) as ->.
    { destruct fuel; [done|]. simpl.
      destruct (_ <? _) eqn:E'; [|done]. apply Nat.ltb_lt in E'. lia. }
    exists [n]. split; [done|]. split.
    { cbn [length]. apply Nat.div_unique with (String.length rest - 1); lia. }
    rewrite unpack_cons. simpl unpack. rewrite str_app_nil_r, Hfmt, Hc.
    rewrite slice_short by done. do 2 f_equal. simpl length. lia.
  - (* a full byte, and more to come *)
    pose proof (slice_split rest 8) as Hsplit.
    set (chunk := slice rest 0 8) in *.
    set (rest' := slice rest 8 (String.length rest - 8)) in *.
    assert (String.length chunk = 8) as Hchunk by lia.
    assert (String.length rest' = String.length rest - 8) as Hrest'.
    { unfold rest'. rewrite slice_length. lia. }
    destruct (IH (pre +:+ chunk) rest' (compressed ++ [n])) as (bytes & Hloop & Hlen & Hun).
    { unfold rest'. by apply is_bits_slice. }
    { lia. }
    rewrite str_length_app, Hchunk, str_app_assoc, <-Hsplit in Hloop.
    rewrite str_length_app in Hloop.
    rewrite Hloop. exists (n :: bytes). split; [by rewrite <-app_assoc|].
    split.
    { cbn [length]. rewrite Hlen, Hrest'.
      assert (String.length rest + 7 = String.length rest - 8 + 7 + 1 * 8) as ->
        by lia.
      rewrite Nat.div_add by done. lia. }
    rewrite unpack_cons, Hfmt, Hchunk, Hun. simpl str_repeat.
    rewrite str_app_nil_r, <-str_app_assoc, <-Hsplit.
    do 2 f_equal. simpl length. lia.
Qed.

Lemma pack_spec bitstream :
  is_bits bitstream = true →
  ∃ bytes,
    pack bitstream = Ok bytes ∧
    length bytes = (String.length bitstream + 7) / 8 ∧
    unpack bytes EmptyString
    = bitstream +:+ str_repeat "0" (8 * length bytes - String.length bitstream).
Proof.
  intros Hb. unfold pack.
  destruct (pack_loop_spec (String.length bitstream) EmptyString bitstream [] Hb)
    as (bytes & Hloop & Hrest); [done|].
  exists bytes. by rewrite str_app_nil_l in Hloop.
Qed.
End pack.

(** ** The scan of [decompress] *)

Section decode_loop.
Context (t : TextCompressor).
Implicit Types (bs pre rest text code : string) (i fuel : nat).
Local Abbreviation w := (bits_per_char t).

Lemma decode_loop_fuel_mono fuel fuel' bs i text r :
  decode_loop fuel t bs i text = Some r → fuel ≤ fuel' →
  decode_loop fuel' t bs i text = Some r.
Proof.
  revert fuel' i text. induction fuel as [|fuel IH]; intros fuel' i text; [done|].
  intros Hr Hle. destruct fuel' as [|fuel']; [lia|]. simpl in *.
  destruct (i <? String.length bs); [|done].
  destruct (String.length (slice bs i w) <? w); [done|].
  destruct (String.eqb (slice bs i w) (eos_code t)); [done|].
  destruct (code_to_char t !! slice bs i w) as [[sym|]|]; [|done..].
  apply IH; [done|lia].
Qed.

(** Nothing after a window that ended the scan at EOS is looked at. *)
Lemma decode_loop_app_eos fuel bs rest i text out :
  decode_loop fuel t bs i text = Some (Ok (out, Eos)) →
  decode_loop fuel t (bs +:+ rest) i text = Some (Ok (out, Eos)).
Proof.
  revert i text. induction fuel as [|fuel IH]; intros i text; [done|]. simpl.
  destruct (i <? String.length bs) eqn:Hi; [|done].
  apply Nat.ltb_lt in Hi.
  assert ((i <? String.length (bs +:+ rest)) = true) as ->.
  { apply Nat.ltb_lt. rewrite str_length_app. lia. }
  destruct (String.length (slice bs i w) <? w) eqn:Hfull; [done|].
  apply Nat.ltb_ge in Hfull. rewrite slice_length in Hfull.
  rewrite (slice_app_l bs rest i w) by lia.
  assert ((String.length (slice bs i w) <? w) = false) as ->.
  { apply Nat.ltb_ge. rewrite slice_length. lia. }
  destruct (String.eqb (slice bs i w) (eos_code t)); [done|].
  destruct (code_to_char t !! slice bs i w) as [[sym|]|]; [|done..].
  apply IH.
Qed.

Lemma decode_loop_exhausted fuel bs text :
  decode_loop (S fuel) t bs (String.length bs) text = Some (Ok (text, Exhausted)).
Proof. simpl. by rewrite Nat.ltb_irrefl. Qed.

Lemma decode_loop_incomplete fuel pre rest text :
  1 ≤ String.length rest < w →
  decode_loop (S fuel) t (pre +:+ rest) (String.length pre) text
  = Some (Ok (text, Incomplete)).
Proof.
  intros Hlen. simpl. rewrite str_length_app.
  assert ((String.length pre <? String.length pre + String.length rest) = true) as ->
    by (apply Nat.ltb_lt; lia).
  rewrite slice_app_skip, slice_length.
  by assert ((Nat.min w (String.length rest - 0) <? w) = true) as ->
    by (apply Nat.ltb_lt; lia).
Qed.

(** The window at [length pre] of [pre ++ code ++ rest] is [code]. *)
Lemma decode_loop_window fuel pre code rest text :
  1 ≤ w → String.length code = w →
  decode_loop (S fuel) t (pre +:+ code +:+ rest) (String.length pre) text
  = if String.eqb code (eos_code t) then Some (Ok (text, Eos))
    else match code_to_char t !! code with
         | Some (Some char) =>
             decode_loop fuel t (pre +:+ code +:+ rest)
               (String.length pre + w) (text +:+ char)
         | _ => Some (Raise (InvalidCode code))
         end.
Proof.
  intros Hw Hlen. cbn [decode_loop]. rewrite <-Hlen.
  rewrite slice_window, !str_length_app, Nat.ltb_irrefl.
  by assert ((String.length pre <?
              String.length pre + (String.length code + String.length rest)) = true)
    as -> by (apply Nat.ltb_lt; lia).
Qed.

Lemma decode_loop_eos fuel pre rest text :
  1 ≤ w → String.length (eos_code t) = w →
  decode_loop (S fuel) t (pre +:+ eos_code t +:+ rest) (String.length pre) text
  = Some (Ok (text, Eos)).
Proof.
  intros Hw Hlen. rewrite decode_loop_window by done.
  by rewrite String.eqb_refl.
Qed.

Lemma decode_loop_unassigned fuel pre code rest text :
  1 ≤ w → unassigned t code →
  decode_loop (S fuel) t (pre +:+ code +:+ rest) (String.length pre) text
  = Some (Raise (InvalidCode code)).
Proof.
  intros Hw (Hlen & Hne & Hno). rewrite decode_loop_window by done.
  apply String.eqb_neq in Hne as ->.
  destruct (code_to_char t !! code) as [[sym|]|] eqn:Hl; [|done..].
  by destruct (Hno sym).
Qed.

Lemma length_concat_windows (ws : list (string * string)) :
  Forall (symbol_window t) ws →
  String.length (str_concat ws.*1) = length ws * w.
Proof.
  induction 1 as [|[code sym] ws (Hlen & _) _ IH]; [done|].
  rewrite fmap_cons. cbn [str_concat fst length] in *.
  rewrite str_length_app, IH, Hlen. lia.
Qed.

(** A run of symbol windows is read off one window per turn. *)
Lemma decode_loop_symbols (ws : list (string * string)) fuel pre rest text :
  1 ≤ w → Forall (symbol_window t) ws →
  decode_loop (length ws + fuel) t (pre +:+ str_concat ws.*1 +:+ rest)
    (String.length pre) text
  = decode_loop fuel t (pre +:+ str_concat ws.*1 +:+ rest)
      (String.length pre + String.length (str_concat ws.*1))
      (text +:+ str_concat ws.*2).
Proof.
  intros Hw Hws. revert pre text.
  induction Hws as [|[code sym] ws (Hlen & Hne & Hsym) Hws IH]; intros pre text.
  { simpl. by rewrite Nat.add_0_r, str_app_nil_r. }
  rewrite !fmap_cons. cbn [str_concat fst snd length] in *.
  change (S (length ws) + fuel) with (S (length ws + fuel)).
  rewrite !str_app_assoc.
  rewrite decode_loop_window by done.
  apply String.eqb_neq in Hne as ->. rewrite Hsym.
  specialize (IH (pre +:+ code) (text +:+ sym)).
  rewrite !str_length_app, !str_app_assoc, Hlen in IH.
  rewrite IH. rewrite str_length_app, Hlen. f_equal. lia.
Qed.

(** A buffer whose bits are symbol windows followed by the EOS code decodes
    to the symbols, whatever follows. *)
Lemma decode_windows_eos (ws : list (string * string)) rest (compressed : list nat) :
  1 ≤ w → String.length (eos_code t) = w →
  Forall (symbol_window t) ws →
  unpack compressed EmptyString = str_concat ws.*1 +:+ eos_code t +:+ rest →
  decode t compressed = Some (Ok (str_concat ws.*2, Eos)).
Proof.
  intros Hw Heos Hws Hbits. unfold decode. rewrite Hbits.
  pose proof (length_concat_windows ws Hws) as Hlen.
  set (bs := str_concat ws.*1 +:+ eos_code t +:+ rest).
  assert (length ws * w ≤ String.length bs) as Hbs.
  { unfold bs. rewrite str_length_app. lia. }
  assert (∃ fuel, S (String.length bs) = length ws + S fuel) as [fuel ->].
  { exists (String.length bs - length ws). nia. }
  pose proof (decode_loop_symbols ws (S fuel) EmptyString
                (eos_code t +:+ rest) EmptyString Hw Hws) as Hrun.
  rewrite !str_app_nil_l in Hrun. simpl String.length in Hrun.
  simpl Nat.add in Hrun. fold bs in Hrun. rewrite Hrun.
  by apply decode_loop_eos.
Qed.

(** A buffer whose bits are symbol windows followed by an unassigned
    window is rejected with that window. *)
Lemma decode_windows_unassigned (ws : list (string * string)) code rest
    (compressed : list nat) :
  1 ≤ w → Forall (symbol_window t) ws → unassigned t code →
  unpack compressed EmptyString = str_concat ws.*1 +:+ code +:+ rest →
  decode t compressed = Some (Raise (InvalidCode code)).
Proof.
  intros Hw Hws Hbad Hbits. unfold decode. rewrite Hbits.
  pose proof (length_concat_windows ws Hws) as Hlen.
  set (bs := str_concat ws.*1 +:+ code +:+ rest).
  assert (length ws * w ≤ String.length bs) as Hbs.
  { unfold bs. rewrite str_length_app. lia. }
  assert (∃ fuel, S (String.length bs) = length ws + S fuel) as [fuel ->].
  { exists (String.length bs - length ws). nia. }
  pose proof (decode_loop_symbols ws (S fuel) EmptyString
                (code +:+ rest) EmptyString Hw Hws) as Hrun.
  rewrite !str_app_nil_l in Hrun. simpl String.length in Hrun.
  simpl Nat.add in Hrun. fold bs in Hrun. rewrite Hrun.
  by apply decode_loop_unassigned.
Qed.

(** With a positive width the scan of any buffer stops. *)
Lemma decode_loop_stops fuel bs i text :
  1 ≤ w → String.length bs ≤ i + fuel →
  is_Some (decode_loop (S fuel) t bs i text).
Proof.
  intros Hw. revert i text. induction fuel as [|fuel IH]; intros i text Hle.
  { cbn [decode_loop]. destruct (i <? String.length bs) eqn:E; [|by eexists].
    apply Nat.ltb_lt in E. lia. }
  remember (S fuel) as fuel' eqn:Hf. cbn [decode_loop].
  destruct (i <? String.length bs); [|by eexists].
  destruct (_ <? w); [by eexists|].
  destruct (String.eqb _ _); [by eexists|].
  destruct (code_to_char t !! _) as [[sym|]|]; [|by eexists..].
  subst fuel'. apply IH. lia.
Qed.
End decode_loop.

(** ** The codec over a built table *)

Section codec.
Context (cs : list string) (t : TextCompressor).
Hypothesis Hbuild : build_table cs = Ok t.
Implicit Types (text s code : string) (c : ascii).
Local Abbreviation w := (bits_per_char t).

Lemma table_supported s : is_Some (char_to_code t !! s) ↔ s ∈ char_set t.
Proof using Hbuild.
  rewrite (table_char_set cs t Hbuild), (table_char_to_code cs t Hbuild).
  unfold last_index. destruct (last_index_from 0 s cs) as [i|] eqn:Hi; simpl.
  - split; [intros _|by eauto].
    apply last_index_from_Some in Hi as (_ & Hi & _).
    apply list_elem_of_lookup. eauto.
  - apply last_index_from_None in Hi. split; [by intros [? [=]]|done].
Qed.

Lemma supported_char_set text :
  supported t text ↔ Forall (fun c => str c ∈ char_set t) (chars text).
Proof using Hbuild.
  unfold supported. apply Forall_proper; [|done]. intros c. apply table_supported.
Qed.

Lemma windows_codes text : str_concat (windows_of t text).*1 = codes_of t text.
Proof.
  unfold windows_of, chars. induction text as [|c text IH]; [done|].
  cbn [list_ascii_of_string]. rewrite !fmap_cons. cbn [str_concat fst codes_of].
  by rewrite IH.
Qed.

Lemma windows_symbols text : str_concat (windows_of t text).*2 = text.
Proof.
  unfold windows_of, chars. induction text as [|c text IH]; [done|].
  cbn [list_ascii_of_string]. rewrite !fmap_cons. cbn [str_concat snd].
  by rewrite IH.
Qed.

Lemma windows_length text : length (windows_of t text) = String.length text.
Proof.
  unfold windows_of, chars. rewrite length_fmap.
  induction text as [|c text IH]; simpl; [done|]. by rewrite IH.
Qed.

Lemma windows_ok text :
  supported t text → Forall (symbol_window t) (windows_of t text).
Proof using Hbuild.
  unfold supported, windows_of. intros Hs. apply Forall_fmap.
  eapply Forall_impl; [exact Hs|]. intros c [code Hc]. unfold symbol_window.
  simpl. rewrite Hc. simpl. split; [|split].
  - by eapply table_code_length.
  - by eapply table_code_not_eos.
  - by eapply table_reverse.
Qed.

Lemma codes_of_length text :
  supported t text → String.length (codes_of t text) = String.length text * w.
Proof using Hbuild.
  intros Hs. rewrite <-windows_codes, <-(windows_length text).
  by apply length_concat_windows, windows_ok.
Qed.

Lemma codes_of_bits text : is_bits (codes_of t text) = true.
Proof using Hbuild.
  induction text as [|c text IH]; [done|]. cbn [codes_of].
  rewrite is_bits_app, IH, andb_true_r.
  destruct (char_to_code t !! str c) as [code|] eqn:Hc; [|done].
  by eapply table_code_bits.
Qed.

(** What [compress] returns on a text whose characters all have a code. *)
Lemma compress_spec text :
  supported t (lower text) →
  let bits := (String.length (lower text) + 1) * w in
  ∃ compressed,
    compress t text
    = Ok (compressed, Z.of_nat (String.length (lower text) * w)) ∧
    length compressed = (bits + 7) / 8 ∧
    unpack compressed EmptyString
    = codes_of t (lower text) +:+ eos_code t
      +:+ str_repeat "0" (8 * length compressed - bits).
Proof using Hbuild.
  intros Hs bits. unfold compress. rewrite encode_bits_Ok by done. simpl mbind.
  set (bs := codes_of t (lower text) +:+ eos_code t).
  assert (String.length bs = bits) as Hlen.
  { unfold bs, bits. rewrite str_length_app, codes_of_length by done.
    rewrite (table_eos_length cs t Hbuild). lia. }
  assert (is_bits bs = true) as Hb.
  { unfold bs. rewrite is_bits_app, codes_of_bits.
    rewrite (table_eos cs t Hbuild). apply is_bits_format_b. }
  destruct (pack_spec bs Hb) as (compressed & -> & Hn & Hun).
  exists compressed. simpl mbind. rewrite Hlen in *.
  split; [|split; [done|]].
  - do 2 f_equal. unfold bits. lia.
  - rewrite Hun. unfold bs. by rewrite str_app_assoc.
Qed.

Lemma compress_Ok_inv text out : compress t text = Ok out → supported t (lower text).
Proof.
  unfold compress. destruct (encode_bits t text) as [bs|e] eqn:Henc; [|done].
  intros _. destruct (validate t (lower text)) as [[]|e] eqn:Hv.
  - by apply validate_Ok.
  - apply encode_bits_Raise in Hv. congruence.
Qed.

Lemma compress_Raise text e :
  compress t text = Raise e ↔ validate t (lower text) = Raise e.
Proof using Hbuild.
  destruct (validate t (lower text)) as [[]|e'] eqn:Hv.
  - apply validate_Ok in Hv. destruct (compress_spec text Hv) as (? & -> & _).
    done.
  - apply encode_bits_Raise in Hv. unfold compress. rewrite Hv. simpl.
    split; intros [= ->]; done.
Qed.

(** The bytes of an encoded text decode to the case-folded text, and the
    scan ends at the EOS code. *)
Lemma decode_compress text compressed n :
  compress t text = Ok (compressed, n) →
  decode t compressed = Some (Ok (lower text, Eos)).
Proof using Hbuild.
  intros Hc. pose proof (compress_Ok_inv _ _ Hc) as Hs.
  destruct (compress_spec text Hs) as (compressed' & Hc' & _ & Hun).
  rewrite Hc in Hc'. injection Hc' as <- _.
  rewrite <-(windows_symbols (lower text)).
  eapply decode_windows_eos.
  - apply (table_bits_range cs t Hbuild).
  - apply (table_eos_length cs t Hbuild).
  - by apply windows_ok.
  - rewrite windows_codes. exact Hun.
Qed.

(** On a built table the scan of every buffer stops: [decompress] returns
    a text or raises. *)
Lemma decompress_total (compressed : list nat) :
  is_Some (decompress t compressed).
Proof using Hbuild.
  pose proof (table_bits_range cs t Hbuild) as Hw.
  unfold decompress, decode.
  destruct (decode_loop_stops t (String.length (unpack compressed EmptyString))
              (unpack compressed EmptyString) 0 EmptyString) as [r Hr];
    [lia|lia|].
  rewrite Hr. destruct r as [[text how]|e]; by eexists.
Qed.

(** The pattern of an earlier position of a repeated symbol is in neither
    direction of the table. *)
Lemma shadowed_unassigned (i j : nat) s :
  cs !! i = Some s → cs !! j = Some s → i < j →
  unassigned t (format_b w i) ∧ code_to_char t !! format_b w i = None.
Proof using Hbuild.
  intros Hi Hj Hlt.
  pose proof (table_bits_range cs t Hbuild) as Hw.
  pose proof (table_capacity cs t Hbuild) as Hcap.
  pose proof (lookup_lt_Some _ _ _ Hi) as Hilt.
  rewrite <-(table_num_chars cs t Hbuild) in Hilt.
  assert (format_b w i ≠ eos_code t) as Hne.
  { rewrite (table_eos cs t Hbuild). intros Heq%format_b_inj. lia. }
  assert (∀ s', char_to_code t !! s' ≠ Some (format_b w i)) as Hno.
  { intros s' (i' & Hlast & _ & Heq)%(table_code_index cs t Hbuild).
    apply format_b_inj in Heq as <-.
    apply last_index_from_Some in Hlast as (_ & Hi' & Hafter).
    rewrite Nat.sub_0_r in Hi', Hafter.
    apply (Hafter j Hlt). congruence. }
  split.
  - split; [|split; [done|]].
    + apply length_format_b; lia.
    + intros sym Hsym%(table_reverse cs t Hbuild). by destruct (Hno sym).
  - by apply (table_unassigned cs t Hbuild).
Qed.

(** A repeated symbol keeps the code of its last position. *)
Lemma last_code (j : nat) s :
  cs !! j = Some s →
  ∃ k, last_index s cs = Some k ∧ j ≤ k ∧ k < length cs ∧
       char_to_code t !! s = Some (format_b w k).
Proof using Hbuild.
  intros Hj. rewrite (table_char_to_code cs t Hbuild). unfold last_index.
  destruct (last_index_from 0 s cs) as [k|] eqn:Hk.
  - exists k. split; [done|].
    apply last_index_from_Some in Hk as (_ & Hk & Hafter).
    rewrite Nat.sub_0_r in Hk, Hafter. apply lookup_lt_Some in Hk.
    split; [|done]. destruct (decide (j ≤ k)); [done|].
    destruct (Hafter j); [lia|done].
  - apply last_index_from_None in Hk. destruct Hk.
    apply list_elem_of_lookup. eauto.
Qed.

(** Without repeated symbols every position below [num_chars] is assigned. *)
Lemma nodup_assigned (i : nat) :
  NoDup cs → i < num_chars t →
  ∃ s, code_to_char t !! format_b w i = Some (Some s).
Proof using Hbuild.
  intros Hnd Hi. rewrite (table_num_chars cs t Hbuild) in Hi.
  destruct (lookup_lt_is_Some_2 cs i Hi) as [s Hs].
  destruct (last_code i s Hs) as (k & Hk & _ & _ & Hcode).
  apply last_index_from_Some in Hk as (_ & Hk & _). rewrite Nat.sub_0_r in Hk.
  assert (k = i) as -> by (by eapply NoDup_lookup).
  exists s. by apply (table_reverse cs t Hbuild).
Qed.

Lemma unassigned_above code :
  NoDup cs → is_bits code = true → unassigned t code →
  num_chars t + 1 < 2 ^ w.
Proof using Hbuild.
  intros Hnd Hb (Hlen & Hne & Hno).
  pose proof (table_bits_range cs t Hbuild) as Hw.
  destruct (int2_digits_spec code Hb) as (v & Hv & Hacc).
  destruct (format_b_int2 code v Hb) as [_ Hfmt]; [lia| |].
  { rewrite Hacc. f_equal. }
  rewrite Hlen in Hv, Hfmt.
  destruct (decide (v < num_chars t)) as [Hlt|Hge].
  { destruct (nodup_assigned v Hnd Hlt) as [s Hs].
    rewrite Hfmt in Hs. by destruct (Hno s). }
  destruct (decide (v = num_chars t)) as [->|Hneq]; [|lia].
  by rewrite <-(table_eos cs t Hbuild) in Hfmt.
Qed.

Lemma spare_unassigned :
  num_chars t + 1 < 2 ^ w → unassigned t (format_b w (num_chars t + 1)).
Proof using Hbuild.
  intros Hspare. pose proof (table_bits_range cs t Hbuild) as Hw.
  split; [|split].
  - apply length_format_b; lia.
  - rewrite (table_eos cs t Hbuild). intros Heq%format_b_inj. lia.
  - intros sym Hsym%(table_reverse cs t Hbuild).
    apply (table_code_index cs t Hbuild) in Hsym as (i & _ & Hi & Heq).
    apply format_b_inj in Heq. lia.
Qed.
End codec.

(** * The specification, statement by statement *)

Lemma init_abc : init "a,b,c" = Ok abc_table.
Proof. vm_compute. reflexivity. Qed.

(** C1 (round trip).  For a table built from a table file and a text whose
    characters, once lowercased, are all symbols of the table, [compress]
    succeeds and [decompress] on its bytes returns the lowercased text. *)
Theorem roundtrip (content : string) (t : TextCompressor) (text : string) :
  init content = Ok t →
  Forall (fun c => str c ∈ char_set t) (chars (lower text)) →
  ∃ compressed bits,
    compress t text = Ok (compressed, bits) ∧
    decompress t compressed = Some (Ok (lower text)).
Proof.
  intros Hinit Htext. apply (supported_char_set _ _ Hinit) in Htext.
  destruct (compress_spec _ _ Hinit text Htext) as (compressed & Hc & _).
  eexists compressed, _. split; [exact Hc|].
  unfold decompress. by rewrite (decode_compress _ _ Hinit _ _ _ Hc).
Qed.

Lemma roundtrip_witness :
  init "a,b,c" = Ok abc_table ∧
  Forall (fun c => str c ∈ char_set abc_table) (chars (lower "Cab")) ∧
  ∃ compressed bits,
    compress abc_table "Cab" = Ok (compressed, bits) ∧
    decompress abc_table compressed = Some (Ok "cab").
Proof.
  assert (Forall (fun c => str c ∈ char_set abc_table) (chars (lower "Cab")))
    as Htext by (vm_compute; repeat constructor).
  split; [exact init_abc|]. split; [exact Htext|].
  exact (roundtrip "a,b,c" abc_table "Cab" init_abc Htext).
Defined.

(** C8 (reported bit count).  The integer returned next to the bytes is the
    number of bits of the symbols alone: the length of the lowercased text
    times the code width, the EOS code not counted. *)
Theorem bitstream_bits_count (content : string) (t : TextCompressor)
    (text : string) (compressed : list nat) (n : Z) :
  init content = Ok t →
  compress t text = Ok (compressed, n) →
  n = Z.of_nat (String.length (lower text) * bits_per_char t).
Proof.
  intros Hinit Hc. pose proof (compress_Ok_inv _ _ _ Hc) as Hs.
  destruct (compress_spec _ _ Hinit text Hs) as (compressed' & Hc' & _).
  congruence.
Qed.

Lemma bitstream_bits_count_witness :
  init "a,b,c" = Ok abc_table ∧
  compress abc_table "Cab" = Ok ([135], 6%Z) ∧
  6%Z = Z.of_nat (String.length (lower "Cab") * bits_per_char abc_table).
Proof.
  assert (compress abc_table "Cab" = Ok ([135], 6%Z)) as Hc
    by (vm_compute; reflexivity).
  split; [exact init_abc|]. split; [exact Hc|].
  exact (bitstream_bits_count "a,b,c" abc_table "Cab" [135] 6%Z init_abc Hc).
Defined.

(** C9 as stated fails: with the table file i, U+0307, a (width 2) the text
    of four capital I with dot above (U+0130) is lowercased to eight code
    points and encodes to three bytes, where the length 4 of the text gives
    ceil((4+1)*2/8) = 2. *)
Lemma compressed_length_of_dotted_capital_I :
  ∃ t compressed n,
    Wide.init [105; 44; 775; 44; 97]%N = Some (Wide.Ok t) ∧
    Wide.bits_per_char t = 2 ∧
    Wide.lower [304; 304; 304; 304]%N
    = Some [105; 775; 105; 775; 105; 775; 105; 775]%N ∧
    Wide.compress t [304; 304; 304; 304]%N = Some (Wide.Ok (compressed, n)) ∧
    length compressed = 3 ∧
    length compressed
    ≠ ((length [304; 304; 304; 304]%N + 1) * Wide.bits_per_char t + 7) / 8.
Proof.
  destruct (Wide.init [105; 44; 775; 44; 97]%N) as [[t|e]|] eqn:Ht;
    vm_compute in Ht; try discriminate Ht.
  injection Ht as <-. eexists _, [17; 17; 192], 16%Z.
  split; [reflexivity|]. split; [reflexivity|]. split; [reflexivity|].
  split; [vm_compute; reflexivity|]. split; [reflexivity|].
  vm_compute. lia.
Qed.

(** C9 (size of the output, amended).  A text whose lowercased form has [L]
    characters and that encodes successfully at width [w] gives exactly
    ceil((L+1)*w/8) bytes, so at least one; the empty text gives the single
    byte made of the EOS code and zero padding. *)
Theorem compressed_length (content : string) (t : TextCompressor) :
  init content = Ok t →
  (∀ text compressed n,
     compress t text = Ok (compressed, n) →
     let bits := (String.length (lower text) + 1) * bits_per_char t in
     length compressed = (bits + 7) / 8 ∧
     bits ≤ 8 * length compressed < bits + 8 ∧
     1 ≤ length compressed) ∧
  (∃ b, compress t EmptyString = Ok ([b], 0%Z) ∧
        format_b 8 b
        = eos_code t +:+ str_repeat "0" (8 - bits_per_char t)).
Proof.
  intros Hinit. pose proof (table_bits_range _ _ Hinit) as Hw. split.
  - intros text compressed n Hc bits.
    pose proof (compress_Ok_inv _ _ _ Hc) as Hs.
    destruct (compress_spec _ _ Hinit text Hs) as (compressed' & Hc' & Hlen & _).
    rewrite Hc in Hc'. injection Hc' as <- _. fold bits in Hlen.
    assert (1 ≤ bits) as Hbits by (unfold bits; nia).
    pose proof (Nat.div_mod_eq (bits + 7) 8) as Hdm.
    pose proof (Nat.mod_upper_bound (bits + 7) 8) as Hmod.
    rewrite <-Hlen in Hdm. lia.
  - destruct (compress_spec _ _ Hinit EmptyString) as (compressed & Hc & Hlen & Hun).
    { apply Forall_nil_2. }
    cbn [lower String.length codes_of] in Hc, Hlen, Hun.
    rewrite Nat.add_0_l, Nat.mul_1_l in Hlen, Hun. rewrite Nat.mul_0_l in Hc.
    assert (length compressed = 1) as Hone.
    { rewrite Hlen. apply eq_sym, Nat.div_unique with (bits_per_char t - 1); lia. }
    destruct compressed as [|b [|? ?]]; try discriminate Hone.
    exists b. split; [exact Hc|].
    rewrite unpack_cons in Hun. cbn [unpack length] in Hun.
    by rewrite str_app_nil_r, str_app_nil_l, Nat.mul_1_r in Hun.
Qed.

Lemma compressed_length_witness :
  init "a,b,c" = Ok abc_table ∧
  compress abc_table "Cab" = Ok ([135], 6%Z) ∧
  length [135] = ((String.length (lower "Cab") + 1) * 2 + 7) / 8 ∧
  compress abc_table EmptyString = Ok ([192], 0%Z).
Proof.
  assert (compress abc_table "Cab" = Ok ([135], 6%Z)) as Hc
    by (vm_compute; reflexivity).
  destruct (compressed_length "a,b,c" abc_table init_abc) as [Hlen _].
  split; [exact init_abc|]. split; [exact Hc|].
  split; [exact (proj1 (Hlen "Cab" [135] 6%Z Hc))|].
  vm_compute. reflexivity.
Defined.

(** C4 (unsupported symbol).  If the lowercased text has a character with
    no entry in [char_to_code], [compress] raises for the first such
    character and no bit stream is built; a call either encodes the whole
    text or fails that way. *)
Theorem compress_unsupported_symbol (content : string) (t : TextCompressor) :
  init content = Ok t →
  (∀ text pre c post,
     lower text = pre +:+ String c post →
     supported t pre →
     char_to_code t !! str c = None →
     compress t text = Raise (UnsupportedCharacter c) ∧
     encode_bits t text = Raise (UnsupportedCharacter c)) ∧
  (∀ text,
     (supported t (lower text) ∧
      ∃ compressed n, compress t text = Ok (compressed, n) ∧
        decompress t compressed = Some (Ok (lower text))) ∨
     (¬ supported t (lower text) ∧
      ∃ c, char_to_code t !! str c = None ∧
           compress t text = Raise (UnsupportedCharacter c))).
Proof.
  intros Hinit. split.
  - intros text pre c post Htext Hpre Hc.
    assert (validate t (lower text) = Raise (UnsupportedCharacter c)) as Hv.
    { apply validate_Raise. by exists pre, c, post. }
    split; [by apply (compress_Raise _ _ Hinit)|by apply encode_bits_Raise].
  - intros text. destruct (validate t (lower text)) as [[]|e] eqn:Hv.
    + left. apply validate_Ok in Hv. split; [done|].
      destruct (compress_spec _ _ Hinit text Hv) as (compressed & Hc & _).
      eexists compressed, _. split; [exact Hc|].
      unfold decompress. by rewrite (decode_compress _ _ Hinit _ _ _ Hc).
    + right. split.
      * intros Hs%validate_Ok. congruence.
      * pose proof Hv as (pre & c & post & _ & _ & Hc & ->)%validate_Raise.
        exists c. split; [done|]. by apply (compress_Raise _ _ Hinit).
Qed.

Lemma compress_unsupported_symbol_witness :
  init "a,b,c" = Ok abc_table ∧
  lower "aBdz" = "ab" +:+ String "d" "z" ∧
  supported abc_table "ab" ∧
  char_to_code abc_table !! str "d" = None ∧
  compress abc_table "aBdz" = Raise (UnsupportedCharacter "d").
Proof.
  assert (supported abc_table "ab") as Hpre.
  { repeat constructor; vm_compute; eauto. }
  assert (char_to_code abc_table !! str "d" = None) as Hd
    by (vm_compute; reflexivity).
  destruct (compress_unsupported_symbol "a,b,c" abc_table init_abc) as [Hraise _].
  split; [exact init_abc|]. split; [reflexivity|].
  split; [exact Hpre|]. split; [exact Hd|].
  exact (proj1 (Hraise "aBdz" "ab" "d"%char "z" eq_refl Hpre Hd)).
Defined.

(** C5 (padding tolerance).  When the scan of a buffer ends at the EOS code,
    the buffer followed by any number of zero bytes decodes to the same
    text. *)
Theorem padding_tolerance (t : TextCompressor) (compressed : list nat)
    (text : string) (k : nat) :
  decode t compressed = Some (Ok (text, Eos)) →
  decompress t compressed = Some (Ok text) ∧
  decompress t (compressed ++ replicate k 0) = decompress t compressed.
Proof.
  intros Hd. assert (decompress t compressed = Some (Ok text)) as Hdec.
  { unfold decompress. by rewrite Hd. }
  split; [done|]. rewrite Hdec. unfold decompress, decode in *.
  rewrite unpack_app.
  apply decode_loop_app_eos with (rest := unpack (replicate k 0) EmptyString) in Hd.
  rewrite (decode_loop_fuel_mono t _ _ _ _ _ _ Hd); [done|].
  rewrite str_length_app. lia.
Qed.

Lemma padding_tolerance_witness :
  decode abc_table [28] = Some (Ok ("ab", Eos)) ∧
  decompress abc_table ([28] ++ replicate 3 0) = decompress abc_table [28].
Proof.
  assert (decode abc_table [28] = Some (Ok ("ab", Eos))) as Hd
    by (vm_compute; reflexivity).
  split; [exact Hd|].
  exact (proj2 (padding_tolerance abc_table [28] "ab" 3 Hd)).
Defined.

(** C7 (EOS exclusivity).  In a built table the EOS code is the pattern of
    the number of symbols, no symbol has it as its code, and the scan stops
    at a window equal to it without adding anything to the text. *)
Theorem eos_exclusive (content : string) (t : TextCompressor) :
  init content = Ok t →
  eos_code t = format_b (bits_per_char t) (length (char_set t)) ∧
  int2 (eos_code t) = Ok (length (char_set t)) ∧
  (∀ s code, char_to_code t !! s = Some code → code ≠ eos_code t) ∧
  (∀ fuel bitstream i text,
     slice bitstream i (bits_per_char t) = eos_code t →
     decode_loop (S fuel) t bitstream i text = Some (Ok (text, Eos))) ∧
  (∀ ws rest compressed,
     Forall (symbol_window t) ws →
     unpack compressed EmptyString = str_concat ws.*1 +:+ eos_code t +:+ rest →
     decompress t compressed = Some (Ok (str_concat ws.*2))).
Proof.
  intros Hinit.
  pose proof (table_bits_range _ _ Hinit) as Hw.
  pose proof (table_eos_length _ _ Hinit) as Hlen.
  pose proof (table_eos _ _ Hinit) as Heos.
  rewrite (table_num_chars _ _ Hinit), <-(table_char_set _ _ Hinit) in Heos.
  split; [done|]. split; [|split; [|split]].
  - unfold int2. destruct (eos_code t) as [|x e] eqn:He; [simpl in Hlen; lia|].
    by rewrite Heos, int2_digits_format_b.
  - intros s code. apply (table_code_not_eos _ _ Hinit).
  - intros fuel bitstream i text Hwin.
    pose proof (slice_length bitstream i (bits_per_char t)) as Hsl.
    rewrite Hwin, Hlen in Hsl. cbn [decode_loop].
    assert ((i <? String.length bitstream) = true) as -> by (apply Nat.ltb_lt; lia).
    rewrite Hwin, Hlen, Nat.ltb_irrefl. by rewrite String.eqb_refl.
  - intros ws rest compressed Hws Hbits. unfold decompress.
    by rewrite (decode_windows_eos t ws rest compressed (proj1 Hw) Hlen Hws Hbits).
Qed.

Lemma eos_exclusive_witness :
  init "a,b,c" = Ok abc_table ∧
  eos_code abc_table = format_b 2 3 ∧
  int2 (eos_code abc_table) = Ok 3 ∧
  decode_loop 1 abc_table "000111" 4 "ab" = Some (Ok ("ab", Eos)).
Proof.
  destruct (eos_exclusive "a,b,c" abc_table init_abc) as (Heos & Hint & _ & Hstop & _).
  split; [exact init_abc|]. split; [exact Heos|]. split; [exact Hint|].
  exact (Hstop 0 "000111" 4 "ab" eq_refl).
Defined.

Lemma init_ab : init "a,b" = Ok ab_table.
Proof. vm_compute. reflexivity. Qed.

Lemma init_aba : init "a,b,a" = Ok aba_table.
Proof. vm_compute. reflexivity. Qed.

(** C2 (table construction).  Building a table succeeds exactly when the
    normalized symbol list has between 1 and 31 entries; the width of a
    built table is the least [w] with [2 ^ w >= N + 1] and lies between 1
    and 5; 31 entries give width 5, and an empty list or more than 31
    entries (32 in particular) raise the invalid-table error. *)
Theorem table_construction (content : string) :
  let cs := read_char_set (table_entries content) in
  ((∃ t, init content = Ok t) ↔ 1 ≤ length cs ≤ 31) ∧
  (∀ t, init content = Ok t →
     char_set t = cs ∧ num_chars t = length cs ∧
     bits_per_char t = ceil_log2 (length cs + 1) ∧
     length cs + 1 ≤ 2 ^ bits_per_char t ∧
     (∀ w', length cs + 1 ≤ 2 ^ w' → bits_per_char t ≤ w') ∧
     1 ≤ bits_per_char t ≤ 5) ∧
  (length cs = 31 → ∃ t, init content = Ok t ∧ bits_per_char t = 5) ∧
  (length cs = 32 → ∃ e, init content = Raise e ∧ is_InvalidTable e = true) ∧
  (length cs = 0 ∨ 31 < length cs →
   ∃ e, init content = Raise e ∧ is_InvalidTable e = true).
Proof.
  intros cs. unfold init. fold cs.
  assert (∀ n, 31 < n → length cs = n →
               ∃ e, build_table cs = Raise e ∧ is_InvalidTable e = true) as Hbig.
  { intros n Hn Hlen. exists (TableTooLarge (length cs)). split; [|done].
    apply build_table_Raise. right. split; [lia|done]. }
  split; [|split; [|split; [|split]]].
  - split.
    + intros [t Ht]. by apply build_table_Ok in Ht as [? _].
    + intros Hlen. eexists. apply build_table_Ok. split; [done|reflexivity].
  - intros t Ht.
    pose proof (table_size _ _ Ht) as Hsize.
    pose proof (table_num_chars _ _ Ht) as Hnum.
    pose proof (table_bits _ _ Ht) as Hbits.
    pose proof (table_bits_range _ _ Ht) as Hrange.
    rewrite Hnum in Hsize, Hbits.
    split; [by apply (table_char_set _ _ Ht)|]. split; [done|].
    split; [done|]. rewrite Hbits.
    split; [apply ceil_log2_upper; lia|].
    split; [intros w'; apply ceil_log2_least; lia|]. by rewrite <-Hbits.
  - intros Hlen. eexists. split.
    + apply build_table_Ok. split; [lia|reflexivity].
    + simpl. by rewrite Hlen.
  - intros Hlen. apply (Hbig 32); [lia|done].
  - intros [Hlen|Hlen].
    + exists EmptyTable. split; [|done]. apply build_table_Raise. left.
      split; [|done]. by destruct cs.
    + by apply (Hbig (length cs)).
Qed.

Lemma table_construction_witness :
  length (read_char_set (table_entries content31)) = 31 ∧
  (∃ t, init content31 = Ok t ∧ bits_per_char t = 5) ∧
  length (read_char_set (table_entries content32)) = 32 ∧
  (∃ e, init content32 = Raise e ∧ is_InvalidTable e = true).
Proof.
  assert (length (read_char_set (table_entries content31)) = 31) as H31
    by (vm_compute; reflexivity).
  assert (length (read_char_set (table_entries content32)) = 32) as H32
    by (vm_compute; reflexivity).
  split; [exact H31|]. split.
  { exact (proj1 (proj2 (proj2 (table_construction content31))) H31). }
  split; [exact H32|].
  exact (proj1 (proj2 (proj2 (proj2 (table_construction content32)))) H32).
Defined.

(** C3 as stated fails: the logical bit stream of the text ab over the
    alphabet a, b, c has six bits, not eight, and the packing loop pads it. *)
Lemma abc_scenario_not_eight_bits :
  init "a,b,c" = Ok abc_table ∧
  ¬ (∃ bitstream,
       encode_bits abc_table "ab" = Ok bitstream ∧
       String.length bitstream = 8 ∧
       pad_bits (slice bitstream 0 8) = 0).
Proof.
  split; [exact init_abc|]. intros (bitstream & Hbits & Hlen & _).
  vm_compute in Hbits. injection Hbits as <-. discriminate Hlen.
Qed.

(** C3 (the a, b, c scenario, amended).  The alphabet a, b, c gives width 2,
    the codes a=00, b=01, c=10 and EOS 11; the text ab gives the six logical
    bits 00 01 11, which the packing loop pads with two zero bits into the
    single byte 0b00011100; that byte decodes to ab. *)
Theorem abc_scenario :
  init "a,b,c" = Ok abc_table ∧
  bits_per_char abc_table = 2 ∧
  char_to_code abc_table !! "a" = Some "00" ∧
  char_to_code abc_table !! "b" = Some "01" ∧
  char_to_code abc_table !! "c" = Some "10" ∧
  eos_code abc_table = "11" ∧
  encode_bits abc_table "ab" = Ok "000111" ∧
  String.length "000111" = 6 ∧
  pad_bits (slice "000111" 0 8) = 2 ∧
  compress abc_table "ab" = Ok ([28], 4%Z) ∧
  format_b 8 28 = "00011100" ∧
  decompress abc_table [28] = Some (Ok "ab").
Proof. split; [exact init_abc|]. vm_compute. repeat split. Qed.

(** C10 (repeated entries).  When a symbol occurs at positions [i < j] of
    the normalized list, every entry still counts for [num_chars] and the
    EOS code, the symbol's code is the pattern of its last position, the
    pattern of position [i] is missing from [code_to_char], and a buffer
    whose scan reaches a window with that pattern is rejected, although
    [i] is below the EOS value. *)
Theorem duplicate_symbols (content : string) (t : TextCompressor)
    (i j : nat) (s : string) :
  init content = Ok t →
  char_set t !! i = Some s → char_set t !! j = Some s → i < j →
  char_set t = read_char_set (table_entries content) ∧
  num_chars t = length (char_set t) ∧
  eos_code t = format_b (bits_per_char t) (length (char_set t)) ∧
  (∃ k, last_index s (char_set t) = Some k ∧ j ≤ k ∧
        char_to_code t !! s = Some (format_b (bits_per_char t) k)) ∧
  code_to_char t !! format_b (bits_per_char t) i = None ∧
  i < num_chars t ∧
  (∀ ws rest compressed,
     Forall (symbol_window t) ws →
     unpack compressed EmptyString
     = str_concat ws.*1 +:+ format_b (bits_per_char t) i +:+ rest →
     decompress t compressed
     = Some (Raise (InvalidCode (format_b (bits_per_char t) i)))).
Proof.
  intros Hinit Hi Hj Hlt.
  pose proof (table_char_set _ _ Hinit) as Hcs.
  pose proof (table_num_chars _ _ Hinit) as Hnum.
  pose proof (table_bits_range _ _ Hinit) as Hw.
  rewrite <-Hcs in Hnum. rewrite Hcs in Hi, Hj.
  destruct (shadowed_unassigned _ _ Hinit i j s Hi Hj Hlt) as [Hbad Hnone].
  destruct (last_code _ _ Hinit j s Hj) as (k & Hk & Hjk & _ & Hcode).
  split; [done|]. split; [done|]. split.
  { rewrite (table_eos _ _ Hinit). by rewrite Hnum. }
  split; [exists k; by rewrite Hcs|]. split; [done|]. split.
  { rewrite Hnum, Hcs. by eapply lookup_lt_Some. }
  intros ws rest compressed Hws Hbits. unfold decompress.
  by rewrite (decode_windows_unassigned t ws _ rest compressed (proj1 Hw) Hws Hbad Hbits).
Qed.

Lemma duplicate_symbols_witness :
  init "a,b,a" = Ok aba_table ∧
  char_set aba_table !! 0 = Some "a" ∧ char_set aba_table !! 2 = Some "a" ∧
  num_chars aba_table = 3 ∧
  char_to_code aba_table !! "a" = Some "10" ∧
  code_to_char aba_table !! "00" = None ∧
  decompress aba_table [0] = Some (Raise (InvalidCode "00")).
Proof.
  destruct (duplicate_symbols "a,b,a" aba_table 0 2 "a" init_aba eq_refl eq_refl)
    as (_ & Hnum & _ & _ & Hnone & _ & Hdec); [lia|].
  split; [exact init_aba|]. split; [reflexivity|]. split; [reflexivity|].
  split; [exact Hnum|]. split; [vm_compute; reflexivity|].
  split; [exact Hnone|].
  exact (Hdec [] "000000" [0] (Forall_nil_2 _) eq_refl).
Defined.

(** C6 as stated fails: with the entries a, b, a the four patterns of width
    2 are all needed for three entries and EOS, yet 00 is unassigned. *)
Lemma invalid_code_without_spare_pattern :
  init "a,b,a" = Ok aba_table ∧
  unassigned aba_table "00" ∧
  decompress aba_table [0] = Some (Raise (InvalidCode "00")) ∧
  ¬ (num_chars aba_table + 1 < 2 ^ bits_per_char aba_table).
Proof.
  split; [exact init_aba|]. split; [|split].
  - split; [done|]. split; [done|]. intros sym. vm_compute. discriminate.
  - vm_compute. reflexivity.
  - vm_compute. lia.
Qed.

(** C6 (invalid code, amended).  A full window that holds neither a symbol's
    code nor the EOS code makes the scan raise with that window, at the
    head of the buffer or after any run of symbol windows.  When the symbol
    list has no repeated entry, such a window exists only if
    [2 ^ bits_per_char] exceeds [num_chars + 1]; and whenever it does
    exceed it, the pattern of [num_chars + 1] is such a window. *)
Theorem invalid_code (content : string) (t : TextCompressor) :
  init content = Ok t →
  (∀ ws code rest compressed,
     Forall (symbol_window t) ws → unassigned t code →
     unpack compressed EmptyString = str_concat ws.*1 +:+ code +:+ rest →
     decompress t compressed = Some (Raise (InvalidCode code))) ∧
  (∀ code rest compressed,
     unassigned t code →
     unpack compressed EmptyString = code +:+ rest →
     decompress t compressed = Some (Raise (InvalidCode code))) ∧
  (NoDup (char_set t) →
   ∀ code, is_bits code = true → unassigned t code →
           num_chars t + 1 < 2 ^ bits_per_char t) ∧
  (num_chars t + 1 < 2 ^ bits_per_char t →
   unassigned t (format_b (bits_per_char t) (num_chars t + 1))).
Proof.
  intros Hinit. pose proof (table_bits_range _ _ Hinit) as Hw.
  assert (∀ ws code rest compressed,
     Forall (symbol_window t) ws → unassigned t code →
     unpack compressed EmptyString = str_concat ws.*1 +:+ code +:+ rest →
     decompress t compressed = Some (Raise (InvalidCode code))) as Hscan.
  { intros ws code rest compressed Hws Hbad Hbits. unfold decompress.
    by rewrite (decode_windows_unassigned t ws _ rest compressed
                  (proj1 Hw) Hws Hbad Hbits). }
  split; [exact Hscan|]. split; [|split].
  - intros code rest compressed Hbad Hbits.
    by apply (Hscan [] code rest compressed).
  - intros Hnd code Hb Hbad. rewrite (table_char_set _ _ Hinit) in Hnd.
    by apply (unassigned_above _ _ Hinit code).
  - by apply (spare_unassigned _ _ Hinit).
Qed.

Lemma invalid_code_witness :
  init "a,b" = Ok ab_table ∧
  num_chars ab_table + 1 < 2 ^ bits_per_char ab_table ∧
  unassigned ab_table "11" ∧
  unpack [192] EmptyString = "11" +:+ "000000" ∧
  decompress ab_table [192] = Some (Raise (InvalidCode "11")).
Proof.
  assert (num_chars ab_table + 1 < 2 ^ bits_per_char ab_table) as Hspare
    by (vm_compute; lia).
  destruct (invalid_code "a,b" ab_table init_ab) as (_ & Hhead & _ & Hex).
  pose proof (Hex Hspare) as Hbad.
  split; [exact init_ab|]. split; [exact Hspare|]. split; [exact Hbad|].
  split; [reflexivity|].
  exact (Hhead "11" "000000" [192] Hbad eq_refl).
Defined.

(** * Beyond the specification: the rest of the module *)

(** ** Characters *)

Section characters.
Implicit Types (c : ascii) (s : string).

Lemma lower_char_idemp c : lower_char (lower_char c) = lower_char c.
Proof. destruct c as [[] [] [] [] [] [] [] []]; reflexivity. Qed.

Lemma lower_idemp s : lower (lower s) = lower s.
Proof.
  induction s as [|c s IH]; simpl; [done|]. by rewrite lower_char_idemp, IH.
Qed.

Lemma lower_char_comma c : Ascii.eqb "," (lower_char c) = Ascii.eqb "," c.
Proof. destruct c as [[] [] [] [] [] [] [] []]; reflexivity. Qed.

Lemma lower_char_blank c : Ascii.eqb (lower_char c) " " = Ascii.eqb c " ".
Proof. destruct c as [[] [] [] [] [] [] [] []]; reflexivity. Qed.

Lemma contains_lower s : str_contains "," (lower s) = str_contains "," s.
Proof.
  induction s as [|c s IH]; [done|]. cbn [lower str_contains].
  by rewrite lower_char_comma, IH.
Qed.

Lemma contains_app x a b :
  str_contains x (a +:+ b) = str_contains x a || str_contains x b.
Proof.
  induction a as [|c a IH]; str_simpl; [done|].
  destruct (Ascii.eqb x c); [done|apply IH].
Qed.

Lemma contains_lstrip x s :
  str_contains x s = false → str_contains x (lstrip s) = false.
Proof.
  induction s as [|c s IH]; simpl; [done|].
  destruct (Ascii.eqb x c) eqn:E; [done|]. intros Hs.
  destruct (is_space c); [by apply IH|]. simpl. by rewrite E.
Qed.

Lemma contains_rstrip x s :
  str_contains x s = false → str_contains x (rstrip s) = false.
Proof.
  induction s as [|c s IH]; simpl; [done|].
  destruct (Ascii.eqb x c) eqn:E; [done|]. intros Hs. specialize (IH Hs).
  destruct (rstrip s) as [|c' r].
  - destruct (is_space c); simpl; [done|]. by rewrite E.
  - simpl in *. by rewrite E.
Qed.

Lemma contains_strip x s :
  str_contains x s = false → str_contains x (strip s) = false.
Proof. intros Hs. by apply contains_rstrip, contains_lstrip. Qed.

(** No piece of [split] holds the separator. *)
Lemma contains_split sep s piece :
  piece ∈ split sep s → str_contains sep piece = false.
Proof.
  revert piece. induction s as [|c s IH]; intros piece; simpl.
  - by intros ->%list_elem_of_singleton.
  - destruct (Ascii.eqb c sep) eqn:E.
    + intros [->|Hin]%elem_of_cons; [done|by apply IH].
    + destruct (split sep s) as [|x xs].
      * intros ->%list_elem_of_singleton. simpl.
        by rewrite Ascii.eqb_sym, E.
      * intros [->|Hin]%elem_of_cons.
        -- simpl. rewrite Ascii.eqb_sym, E. apply IH. by left.
        -- apply IH. by right.
Qed.

(** A line of a text holds no character the text does not hold. *)
Lemma contains_splitlines x s line :
  str_contains x s = false → line ∈ splitlines s →
  str_contains x line = false.
Proof.
  assert (∀ n s line, String.length s ≤ n → str_contains x s = false →
            line ∈ splitlines s → str_contains x line = false) as Hgen;
    [|by apply (Hgen (String.length s))].
  clear s line. intros n. induction n as [|n IH]; intros s line Hn Hs.
  { destruct s; [|simpl in Hn; lia]. by intros ?%elem_of_nil. }
  destruct s as [|c s]; simpl; [by intros ?%elem_of_nil|].
  simpl in Hs, Hn. destruct (Ascii.eqb x c) eqn:E; [done|].
  destruct (is_linebreak c).
  - intros [->|Hin]%elem_of_cons; [done|]. destruct s as [|c' s'].
    + by apply elem_of_nil in Hin.
    + destruct (Ascii.eqb c "013" && Ascii.eqb c' "010").
      * apply (IH s'); [simpl in Hn; lia| |done]. simpl in Hs.
        by destruct (Ascii.eqb x c').
      * apply (IH (String c' s')); [lia|done..].
  - pose proof (IH s) as IHs. destruct (splitlines s) as [|l ls].
    + intros ->%list_elem_of_singleton. simpl. by rewrite E.
    + intros [->|Hin]%elem_of_cons.
      * simpl. rewrite E. apply IHs; [lia|done|by left].
      * apply IHs; [lia|done|by right].
Qed.

(** [strip] never leaves a blank at the front. *)
Lemma strip_front s c r : strip s = String c r → is_space c = false.
Proof.
  unfold strip. assert (∀ u, lstrip s = u →
    match u with String c' _ => is_space c' = false | EmptyString => True end) as Hl.
  { intros u <-. induction s as [|c' s IH]; simpl; [done|].
    destruct (is_space c') eqn:E; [done|]. simpl. done. }
  specialize (Hl _ eq_refl). destruct (lstrip s) as [|c' u]; simpl; [done|].
  destruct (rstrip u) as [|? ?].
  - rewrite Hl. by intros [= <- _].
  - by intros [= <- _].
Qed.
End characters.

(** ** The symbols of a table *)

Lemma read_char_set_omap (chars : list string) :
  read_char_set chars = omap normalize chars.
Proof.
  unfold read_char_set.
  assert (∀ acc, foldl (fun char_set char =>
           let char := strip char in
           match char with
           | EmptyString => char_set
           | _ =>
               let char := if String.eqb char "space" then " " else char in
               char_set ++ [lower char]
           end) acc chars = acc ++ omap normalize chars) as Hgen;
    [|by rewrite Hgen].
  induction chars as [|e chars IH]; intros acc; simpl.
  - by rewrite app_nil_r.
  - rewrite IH. unfold normalize. destruct (strip e) as [|c r]; [done|].
    by rewrite <-app_assoc.
Qed.

Lemma char_set_normalize (content : string) (t : TextCompressor) (s : string) :
  init content = Ok t →
  s ∈ char_set t ↔ ∃ entry, entry ∈ table_entries content ∧ normalize entry = Some s.
Proof.
  intros Hinit. rewrite (table_char_set _ _ Hinit), read_char_set_omap.
  apply list_elem_of_omap.
Qed.

Lemma contains_chars (x : ascii) (s : string) :
  str_contains x s = true ↔ x ∈ chars s.
Proof.
  unfold chars. induction s as [|c s IH]; simpl.
  - split; [done|by intros ?%elem_of_nil].
  - rewrite elem_of_cons, <-IH. destruct (Ascii.eqb_spec x c) as [->|Hne].
    + split; [by left|done].
    + split; [by right|]. by intros [?|?].
Qed.

Lemma table_entries_no_comma (content entry : string) :
  entry ∈ table_entries content → str_contains "," entry = false.
Proof.
  unfold table_entries. destruct (str_contains "," (strip content)) eqn:E.
  - apply contains_split.
  - by apply contains_splitlines.
Qed.

Lemma symbols_lowercase_aux (content : string) (t : TextCompressor) (s : string) :
  init content = Ok t → s ∈ char_set t → lower s = s.
Proof.
  intros Hinit (entry & _ & Hn)%(char_set_normalize content t s Hinit).
  unfold normalize in Hn. destruct (strip entry) as [|c r]; [done|].
  injection Hn as <-. by rewrite lower_idemp.
Qed.

(** X1.  Every symbol of a built table is a non-empty string that [lower]
    leaves unchanged. *)
Theorem symbols_lowercase (content : string) (t : TextCompressor) (s : string) :
  init content = Ok t → s ∈ char_set t →
  1 ≤ String.length s ∧ lower s = s.
Proof.
  intros Hinit (entry & _ & Hn)%(char_set_normalize content t s Hinit).
  unfold normalize in Hn. destruct (strip entry) as [|c r]; [done|].
  injection Hn as <-. rewrite str_length_lower, lower_idemp. split; [|done].
  match goal with |- context [if ?b then " " else _] => destruct b end;
    simpl; lia.
Qed.

Lemma symbols_lowercase_witness :
  init "a,b,c" = Ok abc_table ∧ "b" ∈ char_set abc_table ∧
  1 ≤ String.length "b" ∧ lower "b" = "b".
Proof.
  assert ("b" ∈ char_set abc_table) as Hin by (simpl; set_solver).
  split; [exact init_abc|]. split; [exact Hin|].
  exact (symbols_lowercase "a,b,c" abc_table "b" init_abc Hin).
Defined.

(** X2.  The space character is a symbol of a built table exactly when
    some entry of the table file, once trimmed, is the lowercase word
    [space]. *)
Theorem space_symbol (content : string) (t : TextCompressor) :
  init content = Ok t →
  " " ∈ char_set t ↔
  ∃ entry, entry ∈ table_entries content ∧ strip entry = "space".
Proof.
  intros Hinit. rewrite (char_set_normalize content t _ Hinit).
  split; intros (entry & Hin & Hn); exists entry; (split; [done|]).
  - unfold normalize in Hn. destruct (strip entry) as [|c r] eqn:Hs; [done|].
    destruct (String.eqb_spec (String c r) "space") as [Heq|Hne]; [done|].
    exfalso. injection Hn as Hn. simpl in Hn. destruct r as [|? ?]; [|done].
    assert (lower_char c = " "%char) as Hc by congruence.
    apply strip_front in Hs.
    assert (c = " "%char) as ->; [|done].
    apply Ascii.eqb_eq. rewrite <-lower_char_blank, Hc. apply Ascii.eqb_refl.
  - unfold normalize. by rewrite Hn.
Qed.

Lemma space_symbol_witness :
  (∃ t, init "a, space ,b" = Ok t ∧ " " ∈ char_set t) ∧
  (∃ t, init "a,SPACE,b" = Ok t ∧ (" " ∉ char_set t) ∧ ("space" ∈ char_set t)).
Proof.
  destruct (init "a, space ,b") as [t1|] eqn:H1; [|by vm_compute in H1].
  destruct (init "a,SPACE,b") as [t2|] eqn:H2; [|by vm_compute in H2].
  split.
  - exists t1. split; [done|]. apply (space_symbol "a, space ,b" t1 H1).
    exists " space ". split; [vm_compute; set_solver|reflexivity].
  - exists t2. split; [done|]. split.
    + intros (entry & Hin & Hs)%(space_symbol "a,SPACE,b" t2 H2).
      vm_compute in Hin.
      repeat (apply elem_of_cons in Hin as [->|Hin]; [by vm_compute in Hs|]).
      by apply elem_of_nil in Hin.
    + vm_compute in H2. injection H2 as <-. simpl. set_solver.
Defined.

(** X3.  The comma is never part of a symbol, whatever the table file
    holds, so a text with a comma in it is always rejected by [compress]. *)
Theorem comma_never_encodes (content : string) (t : TextCompressor) :
  init content = Ok t →
  (∀ s, s ∈ char_set t → str_contains "," s = false) ∧
  (∀ text, str_contains "," text = true →
           ∃ c, compress t text = Raise (UnsupportedCharacter c)).
Proof.
  intros Hinit.
  assert (∀ s, s ∈ char_set t → str_contains "," s = false) as Hsym.
  { intros s (entry & Hin & Hn)%(char_set_normalize content t s Hinit).
    apply table_entries_no_comma in Hin. unfold normalize in Hn.
    pose proof (contains_strip "," entry Hin) as Hstrip.
    destruct (strip entry) as [|c r]; [done|]. injection Hn as <-.
    rewrite contains_lower.
    by match goal with |- context [if ?b then " " else _] => destruct b end. }
  split; [done|]. intros text Htext.
  destruct (validate t (lower text)) as [[]|e] eqn:Hv.
  - apply validate_Ok in Hv. rewrite <-contains_lower in Htext.
    apply contains_chars in Htext. unfold supported in Hv.
    rewrite Forall_forall in Hv. apply Hv in Htext.
    apply (table_supported _ _ Hinit) in Htext. apply Hsym in Htext.
    discriminate Htext.
  - pose proof Hv as (_ & c & _ & _ & _ & _ & ->)%validate_Raise.
    exists c. by apply (compress_Raise _ _ Hinit).
Qed.

Lemma comma_never_encodes_witness :
  init "a,b,c" = Ok abc_table ∧ str_contains "," "a,b" = true ∧
  compress abc_table "a,b" = Raise (UnsupportedCharacter ",").
Proof.
  split; [exact init_abc|]. split; [reflexivity|].
  destruct (comma_never_encodes "a,b,c" abc_table init_abc) as [_ Hraise].
  destruct (Hraise "a,b" eq_refl) as [c Hc]. rewrite Hc.
  vm_compute in Hc. by injection Hc as <-.
Defined.

(** X4.  [compress] does not see the case of its input: a text and its
    lowercase form give the same result, bytes or error. *)
Theorem compress_case_insensitive (t : TextCompressor) (text : string) :
  compress t (lower text) = compress t text.
Proof. unfold compress, encode_bits. by rewrite lower_idemp. Qed.

(** ** More on the two directions of the codec *)

Section more_codec.
Implicit Types (s a b c d text : string) (bytes compressed : list nat).

Lemma str_app_inj a b c d :
  String.length a = String.length b → a +:+ c = b +:+ d → a = b ∧ c = d.
Proof.
  revert b. induction a as [|x a IH]; intros [|y b]; str_simpl; try done.
  intros [= Hlen] [= -> Heq]. destruct (IH b Hlen Heq) as [-> ->]. done.
Qed.

Lemma lower_app a b : lower (a +:+ b) = lower a +:+ lower b.
Proof. induction a as [|x a IH]; str_simpl; [done|]. by rewrite IH. Qed.

Lemma unpack_length bytes :
  Forall (fun n : nat => n < 256) bytes →
  String.length (unpack bytes EmptyString) = 8 * length bytes.
Proof.
  induction 1 as [|b bytes Hb _ IH]; [done|].
  rewrite unpack_cons, str_length_app, IH.
  rewrite length_format_b; [simpl; lia|lia|done].
Qed.

Lemma unpack_inj bytes1 bytes2 :
  Forall (fun n : nat => n < 256) bytes1 → Forall (fun n : nat => n < 256) bytes2 →
  unpack bytes1 EmptyString = unpack bytes2 EmptyString → bytes1 = bytes2.
Proof.
  intros H1. revert bytes2. induction H1 as [|x bytes1 Hx H1 IH];
    intros bytes2 H2 Heq.
  - destruct H2 as [|y bytes2 Hy H2]; [done|].
    apply (f_equal String.length) in Heq.
    rewrite (unpack_length (y :: bytes2)) in Heq by (by constructor).
    simpl in Heq. lia.
  - destruct H2 as [|y bytes2 Hy H2].
    { apply (f_equal String.length) in Heq.
      rewrite (unpack_length (x :: bytes1)) in Heq by (by constructor).
      simpl in Heq. lia. }
    rewrite !unpack_cons in Heq. apply str_app_inj in Heq as [Hxy Hrest].
    + apply format_b_inj in Hxy as ->. f_equal. by apply IH.
    + rewrite !length_format_b; [done|lia|done|lia|done].
Qed.

Lemma pack_loop_range bitstream idxs acc out :
  pack_loop bitstream idxs acc = Ok out →
  Forall (fun n : nat => n < 256) acc → Forall (fun n : nat => n < 256) out.
Proof.
  revert acc. induction idxs as [|i idxs IH]; intros acc; simpl.
  - by intros [= ->].
  - unfold pack_byte. destruct (int2 _) as [n|e]; simpl; [|done].
    destruct (n <? 256) eqn:E; simpl; [|done]. apply Nat.ltb_lt in E.
    intros Hloop Hacc. apply (IH _ Hloop). apply Forall_app. split; [done|].
    by constructor.
Qed.

Lemma pack_range bitstream out :
  pack bitstream = Ok out → Forall (fun n : nat => n < 256) out.
Proof. intros Hp. by apply (pack_loop_range _ _ _ _ Hp). Qed.

Lemma compress_range (t : TextCompressor) text compressed n :
  compress t text = Ok (compressed, n) → Forall (fun n : nat => n < 256) compressed.
Proof.
  unfold compress. destruct (encode_bits t text) as [bs|e]; simpl; [|done].
  destruct (pack bs) as [out|e] eqn:Hp; simpl; [|done].
  intros [= <- _]. by apply (pack_range bs).
Qed.
End more_codec.

(** X5.  The bytes of [compress], written as bits, are the codes of the
    characters of the lowercased text in order, then the EOS code, then
    fewer than eight zero bits; every byte is below 256. *)
Theorem compress_bit_layout (content : string) (t : TextCompressor)
    (text : string) (compressed : list nat) (n : Z) :
  init content = Ok t →
  compress t text = Ok (compressed, n) →
  Forall (fun n : nat => n < 256) compressed ∧
  ∃ pad, pad < 8 ∧
    unpack compressed EmptyString
    = codes_of t (lower text) +:+ eos_code t +:+ str_repeat "0" pad.
Proof.
  intros Hinit Hc. split; [by eapply compress_range|].
  pose proof (compress_Ok_inv _ _ _ Hc) as Hs.
  pose proof (table_bits_range _ _ Hinit) as Hw.
  destruct (compress_spec _ _ Hinit text Hs) as (compressed' & Hc' & Hlen & Hun).
  rewrite Hc in Hc'. injection Hc' as <- _.
  eexists. split; [|exact Hun].
  set (bits := (String.length (lower text) + 1) * bits_per_char t) in *.
  pose proof (Nat.div_mod_eq (bits + 7) 8) as Hdm.
  pose proof (Nat.mod_upper_bound (bits + 7) 8) as Hmod.
  rewrite <-Hlen in Hdm. lia.
Qed.

Lemma compress_bit_layout_witness :
  init "a,b,c" = Ok abc_table ∧
  compress abc_table "Ca" = Ok ([140], 4%Z) ∧
  unpack [140] EmptyString = "1000" +:+ "11" +:+ "00".
Proof.
  assert (compress abc_table "Ca" = Ok ([140], 4%Z)) as Hc
    by (vm_compute; reflexivity).
  split; [exact init_abc|]. split; [exact Hc|].
  destruct (compress_bit_layout "a,b,c" abc_table "Ca" [140] 4%Z init_abc Hc)
    as [_ (pad & _ & Hun)].
  reflexivity.
Defined.

(** X6.  [compress] loses nothing but the case: two texts with the same
    bytes have the same lowercase form. *)
Theorem compress_injective (content : string) (t : TextCompressor)
    (text1 text2 : string) (compressed : list nat) (n1 n2 : Z) :
  init content = Ok t →
  compress t text1 = Ok (compressed, n1) →
  compress t text2 = Ok (compressed, n2) →
  lower text1 = lower text2.
Proof.
  intros Hinit H1 H2.
  pose proof (decode_compress _ _ Hinit _ _ _ H1) as Hd1.
  pose proof (decode_compress _ _ Hinit _ _ _ H2) as Hd2.
  congruence.
Qed.

Lemma compress_injective_witness :
  init "a,b,c" = Ok abc_table ∧
  compress abc_table "Cab" = Ok ([135], 6%Z) ∧
  compress abc_table "cAB" = Ok ([135], 6%Z) ∧
  lower "Cab" = lower "cAB".
Proof.
  assert (compress abc_table "Cab" = Ok ([135], 6%Z)) as H1
    by (vm_compute; reflexivity).
  assert (compress abc_table "cAB" = Ok ([135], 6%Z)) as H2
    by (vm_compute; reflexivity).
  split; [exact init_abc|]. split; [exact H1|]. split; [exact H2|].
  exact (compress_injective "a,b,c" abc_table "Cab" "cAB" [135] 6%Z 6%Z
           init_abc H1 H2).
Defined.

(** X12.  The two byte loops are inverse to each other: packing the bits
    that [decompress] unpacks from a buffer of bytes gives the buffer
    back. *)
Theorem pack_unpack (bytes : list nat) :
  Forall (fun n : nat => n < 256) bytes →
  pack (unpack bytes EmptyString) = Ok bytes.
Proof.
  intros Hrange. pose proof (unpack_length bytes Hrange) as Hlen.
  destruct (pack_spec (unpack bytes EmptyString) (is_bits_unpack bytes))
    as (bytes' & Hp & Hn & Hun).
  rewrite Hp. f_equal. rewrite Hlen in Hn, Hun.
  assert (length bytes' = length bytes) as Hsame.
  { rewrite Hn. apply eq_sym, Nat.div_unique with 7; lia. }
  rewrite Hsame, Nat.sub_diag in Hun. simpl in Hun.
  rewrite str_app_nil_r in Hun.
  apply unpack_inj; [by apply (pack_range _ _ Hp)|done..].
Qed.

Lemma pack_unpack_witness :
  Forall (fun n : nat => n < 256) [28; 0; 255] ∧
  pack (unpack [28; 0; 255] EmptyString) = Ok [28; 0; 255].
Proof.
  assert (Forall (fun n : nat => n < 256) [28; 0; 255]) as Hr
    by (repeat constructor; lia).
  split; [exact Hr|]. exact (pack_unpack [28; 0; 255] Hr).
Defined.

(** ** More on the scan *)

Section more_decode.
Context (t : TextCompressor).
Implicit Types (bs text out : string) (i fuel : nat) (syms : list string).
Local Abbreviation w := (bits_per_char t).

(** What a finished scan has added to the text: one symbol per full window
    it went through. *)
Lemma decode_loop_output fuel bs i text out how :
  decode_loop fuel t bs i text = Some (Ok (out, how)) →
  ∃ syms,
    out = text +:+ str_concat syms ∧
    Forall (fun sym => ∃ code, code_to_char t !! code = Some (Some sym)) syms ∧
    (i ≤ String.length bs → i + length syms * w ≤ String.length bs).
Proof.
  revert i text. induction fuel as [|fuel IH]; intros i text; [done|].
  cbn [decode_loop].
  assert (∀ how', Some (Ok (text, how')) = Some (Ok (out, how)) →
    ∃ syms, out = text +:+ str_concat syms ∧
      Forall (fun sym => ∃ code, code_to_char t !! code = Some (Some sym)) syms ∧
      (i ≤ String.length bs → i + length syms * w ≤ String.length bs)) as Hstop.
  { intros how' [= <- _]. exists []. simpl. rewrite str_app_nil_r.
    split; [done|]. split; [constructor|lia]. }
  destruct (i <? String.length bs) eqn:Hi; [|apply Hstop].
  destruct (String.length (slice bs i w) <? w) eqn:Hfull; [apply Hstop|].
  destruct (String.eqb (slice bs i w) (eos_code t)); [apply Hstop|].
  destruct (code_to_char t !! slice bs i w) as [[sym|]|] eqn:Hsym; [|done..].
  intros (syms & -> & Hsyms & Hlen)%IH.
  apply Nat.ltb_ge in Hfull. rewrite slice_length in Hfull.
  exists (sym :: syms). simpl. rewrite str_app_assoc. split; [done|].
  split; [constructor; eauto|]. intros _. apply Nat.ltb_lt in Hi. lia.
Qed.

Lemma lower_concat syms :
  Forall (fun sym => lower sym = sym) syms →
  lower (str_concat syms) = str_concat syms.
Proof.
  induction 1 as [|sym syms Hsym _ IH]; [done|].
  simpl. by rewrite lower_app, Hsym, IH.
Qed.

Lemma chars_app (a b : string) : chars (a +:+ b) = chars a ++ chars b.
Proof.
  unfold chars. induction a as [|x a IH]; str_simpl; [done|]. by rewrite IH.
Qed.

(** A scan that ran into an incomplete window, or into the end of the bits,
    after a run of symbol windows. *)
Lemma decode_windows_short (ws : list (string * string)) (rest : string)
    (compressed : list nat) :
  1 ≤ w → Forall (symbol_window t) ws → String.length rest < w →
  unpack compressed EmptyString = str_concat ws.*1 +:+ rest →
  ∃ how, decode t compressed = Some (Ok (str_concat ws.*2, how)) ∧ how ≠ Eos.
Proof.
  intros Hw Hws Hrest Hbits. unfold decode. rewrite Hbits.
  pose proof (length_concat_windows t ws Hws) as Hlen.
  set (bs := str_concat ws.*1 +:+ rest).
  assert (length ws * w ≤ String.length bs) as Hbs.
  { unfold bs. rewrite str_length_app. lia. }
  assert (∃ fuel, S (String.length bs) = length ws + S fuel) as [fuel ->].
  { exists (String.length bs - length ws). nia. }
  pose proof (decode_loop_symbols t ws (S fuel) EmptyString rest EmptyString
                Hw Hws) as Hrun.
  rewrite !str_app_nil_l in Hrun. simpl String.length in Hrun.
  simpl Nat.add in Hrun. fold bs in Hrun. rewrite Hrun.
  destruct rest as [|x rest].
  - exists Exhausted. split; [|done]. unfold bs. rewrite str_app_nil_r.
    apply decode_loop_exhausted.
  - exists Incomplete. split; [|done]. unfold bs.
    apply decode_loop_incomplete. simpl in *. lia.
Qed.
End more_decode.

(** X7.  On a built table [decompress] always comes to an end, whatever the
    buffer: it returns a text or raises. *)
Theorem decompress_terminates (content : string) (t : TextCompressor)
    (compressed : list nat) :
  init content = Ok t →
  (∃ text, decompress t compressed = Some (Ok text)) ∨
  (∃ code, decompress t compressed = Some (Raise (InvalidCode code))).
Proof.
  intros Hinit. destruct (decompress_total _ _ Hinit compressed) as [r Hr].
  unfold decompress in *.
  destruct (decode t compressed) as [[[text how]|e]|] eqn:Hd; [| |done].
  - left. by exists text.
  - right. unfold decode in Hd.
    assert (∀ fuel bs i text0,
      decode_loop fuel t bs i text0 = Some (Raise e) → ∃ code, e = InvalidCode code)
      as Hraise.
    { intros fuel bs. induction fuel as [|fuel IH]; intros i text0; [done|].
      cbn [decode_loop]. destruct (i <? _); [|done].
      destruct (_ <? _); [done|]. destruct (String.eqb _ _); [done|].
      destruct (code_to_char t !! _) as [[sym|]|]; [apply IH| |];
        intros [= <-]; eauto. }
    apply Hraise in Hd as [code ->]. by exists code.
Qed.

Lemma decompress_terminates_witness :
  init "a,b" = Ok ab_table ∧
  decompress ab_table [27; 255] = Some (Ok "ab") ∧
  decompress ab_table [255] = Some (Raise (InvalidCode "11")).
Proof.
  split; [exact init_ab|].
  destruct (decompress_terminates "a,b" ab_table [27; 255] init_ab)
    as [[text Ht]|[code Hc]]; vm_compute; done.
Defined.

(** X8.  Bits that do not fill a window are not an error: a buffer made of
    symbol windows followed by fewer than [bits_per_char] bits of any value
    decodes to the symbols; in particular the empty buffer decodes to the
    empty text. *)
Theorem incomplete_window_ignored (content : string) (t : TextCompressor) :
  init content = Ok t →
  (∀ ws rest compressed,
     Forall (symbol_window t) ws →
     String.length rest < bits_per_char t →
     unpack compressed EmptyString = str_concat ws.*1 +:+ rest →
     decompress t compressed = Some (Ok (str_concat ws.*2))) ∧
  decompress t [] = Some (Ok EmptyString).
Proof.
  intros Hinit. pose proof (table_bits_range _ _ Hinit) as Hw.
  assert (∀ ws rest compressed,
     Forall (symbol_window t) ws →
     String.length rest < bits_per_char t →
     unpack compressed EmptyString = str_concat ws.*1 +:+ rest →
     decompress t compressed = Some (Ok (str_concat ws.*2))) as Hshort.
  { intros ws rest compressed Hws Hrest Hbits. unfold decompress.
    destruct (decode_windows_short t ws rest compressed (proj1 Hw) Hws Hrest Hbits)
      as (how & -> & _). done. }
  split; [exact Hshort|].
  apply (Hshort [] EmptyString []); [constructor|simpl; lia|done].
Qed.

Lemma incomplete_window_ignored_witness :
  init "a,b,c" = Ok abc_table ∧
  decompress abc_table [] = Some (Ok EmptyString) ∧
  (∃ t, init content31 = Ok t ∧ decompress t [0; 0] = Some (Ok "   ")).
Proof.
  split; [exact init_abc|].
  split; [exact (proj2 (incomplete_window_ignored "a,b,c" abc_table init_abc))|].
  destruct (init content31) as [t|] eqn:Ht; [|by vm_compute in Ht].
  exists t. split; [done|].
  destruct (incomplete_window_ignored content31 t Ht) as [Hshort _].
  apply (Hshort [("00000", " "); ("00000", " "); ("00000", " ")] "0" [0; 0]).
  - vm_compute in Ht. injection Ht as <-.
    repeat constructor; vm_compute; done.
  - vm_compute in Ht. injection Ht as <-. vm_compute. lia.
  - reflexivity.
Defined.

(** X9.  Nothing after the EOS code is read: when the scan of a buffer ends
    at the EOS code, the buffer followed by any bytes at all decodes to the
    same text. *)
Theorem after_eos_ignored (t : TextCompressor) (compressed extra : list nat)
    (text : string) :
  decode t compressed = Some (Ok (text, Eos)) →
  decompress t (compressed ++ extra) = Some (Ok text).
Proof.
  intros Hd. unfold decompress, decode in *. rewrite unpack_app.
  apply decode_loop_app_eos with (rest := unpack extra EmptyString) in Hd.
  rewrite (decode_loop_fuel_mono t _ _ _ _ _ _ Hd); [done|].
  rewrite str_length_app. lia.
Qed.

Lemma after_eos_ignored_witness :
  decode abc_table [28] = Some (Ok ("ab", Eos)) ∧
  decompress abc_table ([28] ++ [255; 7; 300]) = Some (Ok "ab").
Proof.
  assert (decode abc_table [28] = Some (Ok ("ab", Eos))) as Hd
    by (vm_compute; reflexivity).
  split; [exact Hd|].
  exact (after_eos_ignored abc_table [28] [255; 7; 300] "ab" Hd).
Defined.

(** X10.  What [decompress] returns is made of symbols of the table, one
    for each window it read, so at most [8 * len(compressed) / bits_per_char]
    of them; and it is in lowercase. *)
Theorem decoded_text_symbols (content : string) (t : TextCompressor)
    (compressed : list nat) (text : string) :
  init content = Ok t →
  Forall (fun n : nat => n < 256) compressed →
  decompress t compressed = Some (Ok text) →
  lower text = text ∧
  ∃ syms, text = str_concat syms ∧
          Forall (fun sym => sym ∈ char_set t) syms ∧
          length syms * bits_per_char t ≤ 8 * length compressed.
Proof.
  intros Hinit Hrange Hdec. unfold decompress in Hdec.
  destruct (decode t compressed) as [[[out how]|e]|] eqn:Hd; [|done..].
  injection Hdec as ->. unfold decode in Hd.
  apply decode_loop_output in Hd as (syms & Htext & Hsyms & Hlen).
  rewrite str_app_nil_l in Htext. rewrite unpack_length in Hlen by done.
  assert (Forall (fun sym => sym ∈ char_set t) syms) as Hin.
  { eapply Forall_impl; [exact Hsyms|]. intros sym [code Hcode]. simpl in Hcode.
    apply (table_reverse _ _ Hinit) in Hcode.
    apply (table_supported _ _ Hinit). eauto. }
  split.
  - rewrite Htext. apply lower_concat. eapply Forall_impl; [exact Hin|].
    intros sym Hsym. by apply (symbols_lowercase_aux content t sym Hinit).
  - exists syms. split; [done|]. split; [done|]. lia.
Qed.

Lemma decoded_text_symbols_witness :
  init "a,b,c" = Ok abc_table ∧
  decompress abc_table [4; 16] = Some (Ok "aabaabaa") ∧
  lower "aabaabaa" = "aabaabaa".
Proof.
  assert (decompress abc_table [4; 16] = Some (Ok "aabaabaa")) as Hd
    by (vm_compute; reflexivity).
  assert (Forall (fun n : nat => n < 256) [4; 16]) as Hr
    by (repeat constructor; lia).
  split; [exact init_abc|]. split; [exact Hd|].
  exact (proj1 (decoded_text_symbols "a,b,c" abc_table [4; 16] "aabaabaa"
                  init_abc Hr Hd)).
Defined.

Lemma chars_single_symbols (cs syms : list string) :
  Forall (fun sym => String.length sym = 1) cs →
  Forall (fun sym => sym ∈ cs) syms →
  Forall (fun c => str c ∈ cs) (chars (str_concat syms)).
Proof.
  intros Hone. induction 1 as [|sym syms Hsym _ IH]; [constructor|].
  simpl. rewrite chars_app. apply Forall_app. split; [|done].
  rewrite Forall_forall in Hone. pose proof (Hone _ Hsym) as Hlen.
  destruct sym as [|c [|? ?]]; try done. by repeat constructor.
Qed.

(** X11.  With a table whose symbols are all one character long, every
    text that [decompress] returns is accepted by [compress], and the bytes
    it gives decode to the same text again. *)
Theorem reencode_decoded (content : string) (t : TextCompressor)
    (compressed : list nat) (text : string) :
  init content = Ok t →
  Forall (fun sym => String.length sym = 1) (char_set t) →
  Forall (fun n : nat => n < 256) compressed →
  decompress t compressed = Some (Ok text) →
  ∃ compressed' n,
    compress t text = Ok (compressed', n) ∧
    decompress t compressed' = Some (Ok text).
Proof.
  intros Hinit Hone Hrange Hdec.
  assert (lower text = text ∧
          Forall (fun c => str c ∈ char_set t) (chars text)) as [Hlow Hchars].
  { unfold decompress in Hdec.
    destruct (decode t compressed) as [[[out how]|e]|] eqn:Hd; [|done..].
    injection Hdec as ->. unfold decode in Hd.
    apply decode_loop_output in Hd as (syms & Htext & Hsyms & _).
    rewrite str_app_nil_l in Htext.
    assert (Forall (fun sym => sym ∈ char_set t) syms) as Hin.
    { eapply Forall_impl; [exact Hsyms|]. intros sym [code Hcode].
      simpl in Hcode. apply (table_reverse _ _ Hinit) in Hcode.
      apply (table_supported _ _ Hinit). eauto. }
    split.
    - rewrite Htext. apply lower_concat. eapply Forall_impl; [exact Hin|].
      intros sym Hsym. by apply (symbols_lowercase_aux content t sym Hinit).
    - rewrite Htext. by apply chars_single_symbols. }
  apply (supported_char_set _ _ Hinit) in Hchars. rewrite <-Hlow in Hchars.
  destruct (compress_spec _ _ Hinit text Hchars) as (compressed' & Hc & _).
  eexists compressed', _. split; [exact Hc|].
  unfold decompress. rewrite (decode_compress _ _ Hinit _ _ _ Hc).
  by rewrite Hlow.
Qed.

Lemma reencode_decoded_witness :
  init "a,b,c" = Ok abc_table ∧
  decompress abc_table [4; 16] = Some (Ok "aabaabaa") ∧
  ∃ compressed' n,
    compress abc_table "aabaabaa" = Ok (compressed', n) ∧
    decompress abc_table compressed' = Some (Ok "aabaabaa").
Proof.
  assert (decompress abc_table [4; 16] = Some (Ok "aabaabaa")) as Hd
    by (vm_compute; reflexivity).
  assert (Forall (fun n : nat => n < 256) [4; 16]) as Hr
    by (repeat constructor; lia).
  assert (Forall (fun sym => String.length sym = 1) (char_set abc_table)) as H1
    by (repeat constructor).
  split; [exact init_abc|]. split; [exact Hd|].
  exact (reencode_decoded "a,b,c" abc_table [4; 16] "aabaabaa" init_abc H1 Hr Hd).
Defined.

(** ** The metrics of encode mode *)

Lemma utf8_len_bounds (s : string) :
  String.length s ≤ utf8_len s ≤ 2 * String.length s.
Proof.
  induction s as [|c s IH]; simpl; [lia|].
  unfold utf8_len_char. destruct (nat_of_ascii c <? 128); lia.
Qed.

Lemma encode_mode_Ok (t : TextCompressor) (text hex_output : string)
    (compressed : list nat) (m : metrics) :
  encode_mode t text = Ok (hex_output, compressed, m) →
  ∃ n, compress t text = Ok (compressed, n) ∧
       hex_output = bytes_to_hex compressed ∧
       m = calculate_metrics (lower text) compressed n.
Proof.
  unfold encode_mode. destruct (compress t text) as [[compressed' n]|e]; [|done].
  simpl. intros [= <- <- <-]. by exists n.
Qed.

(** X13.  The metrics of encode mode: the size in bits is eight times the
    size in bytes and exceeds the reported bit stream size by the width of
    the EOS code and fewer than eight padding bits; the compressed size is
    never zero, so the ratio is an ordinary quotient, never infinite; the
    original size is at least one byte for each character of the lowercased
    text. *)
Theorem encode_metrics (content : string) (t : TextCompressor)
    (text hex_output : string) (compressed : list nat) (m : metrics) :
  init content = Ok t →
  encode_mode t text = Ok (hex_output, compressed, m) →
  compressed_size_bytes m = length compressed ∧
  compressed_size_bits m = 8 * compressed_size_bytes m ∧
  bitstream_bits m = Z.of_nat (String.length (lower text) * bits_per_char t) ∧
  (let used := (bitstream_bits m + Z.of_nat (bits_per_char t))%Z in
   (used ≤ Z.of_nat (compressed_size_bits m) < used + 8)%Z) ∧
  1 ≤ compressed_size_bytes m ∧
  compression_ratio m
  = Quotient (original_size_bytes m) (compressed_size_bytes m) ∧
  String.length (lower text) ≤ original_size_bytes m.
Proof.
  intros Hinit (n & Hc & _ & ->)%encode_mode_Ok.
  pose proof (compress_Ok_inv _ _ _ Hc) as Hs.
  destruct (compress_spec _ _ Hinit text Hs) as (compressed' & Hc' & Hlen & _).
  rewrite Hc in Hc'. injection Hc' as <- ->.
  pose proof (table_bits_range _ _ Hinit) as Hw.
  set (L := String.length (lower text)) in *.
  set (bits := (L + 1) * bits_per_char t) in *.
  assert (1 ≤ bits) as Hbits by (unfold bits; nia).
  pose proof (Nat.div_mod_eq (bits + 7) 8) as Hdm.
  pose proof (Nat.mod_upper_bound (bits + 7) 8) as Hmod.
  rewrite <-Hlen in Hdm.
  assert (1 ≤ length compressed) as Hpos by lia.
  unfold calculate_metrics. cbn [compressed_size_bytes compressed_size_bits
    bitstream_bits compression_ratio original_size_bytes].
  split; [done|]. split; [lia|]. split; [done|]. split.
  { cbv zeta. unfold bits in *. nia. }
  split; [done|]. split.
  { destruct (length compressed =? 0) eqn:E; [|done].
    apply Nat.eqb_eq in E. lia. }
  apply utf8_len_bounds.
Qed.

Lemma encode_metrics_witness :
  init "a,b,c" = Ok abc_table ∧
  ∃ m, encode_mode abc_table "Cab" = Ok ("0x87", [135], m) ∧
       compressed_size_bytes m = 1 ∧ compressed_size_bits m = 8 ∧
       bitstream_bits m = 6%Z ∧ compression_ratio m = Quotient 3 1.
Proof.
  split; [exact init_abc|].
  destruct (encode_mode abc_table "Cab") as [[[hex_output compressed] m]|e] eqn:He;
    [|by vm_compute in He].
  destruct (encode_metrics "a,b,c" abc_table "Cab" hex_output compressed m
              init_abc He) as (Hbytes & Hbits & Hstream & _ & _ & Hratio & _).
  vm_compute in He. injection He as <- <- Hm. exists m.
  split; [done|]. rewrite <-Hm in *. repeat split; vm_compute; reflexivity.
Defined.

(** X14.  Encoding never makes a text of two or more characters longer:
    the compressed size in bytes is at most the original size in bytes, and
    strictly smaller from five characters on (characters of the lowercased
    text, the one that is measured and encoded). *)
Theorem no_expansion (content : string) (t : TextCompressor)
    (text hex_output : string) (compressed : list nat) (m : metrics) :
  init content = Ok t →
  encode_mode t text = Ok (hex_output, compressed, m) →
  2 ≤ String.length (lower text) →
  compressed_size_bytes m ≤ original_size_bytes m ∧
  (5 ≤ String.length (lower text) →
   compressed_size_bytes m < original_size_bytes m).
Proof.
  intros Hinit (n & Hc & _ & ->)%encode_mode_Ok Htwo.
  pose proof (compress_Ok_inv _ _ _ Hc) as Hs.
  destruct (compress_spec _ _ Hinit text Hs) as (compressed' & Hc' & Hlen & _).
  rewrite Hc in Hc'. injection Hc' as <- ->.
  pose proof (table_bits_range _ _ Hinit) as Hw.
  pose proof (utf8_len_bounds (lower text)) as Hutf.
  set (L := String.length (lower text)) in *.
  set (bits := (L + 1) * bits_per_char t) in *.
  pose proof (Nat.div_mod_eq (bits + 7) 8) as Hdm.
  pose proof (Nat.mod_upper_bound (bits + 7) 8) as Hmod.
  rewrite <-Hlen in Hdm.
  unfold calculate_metrics. cbn [compressed_size_bytes original_size_bytes].
  assert (bits ≤ 5 * (L + 1)) as Hb by (unfold bits; nia).
  split; [lia|]. intros Hfive. lia.
Qed.

Lemma no_expansion_witness :
  init "a,b,c" = Ok abc_table ∧
  2 ≤ String.length (lower "abCab") ∧
  (∃ hex_output compressed m,
     encode_mode abc_table "abCab" = Ok (hex_output, compressed, m) ∧
     compressed_size_bytes m < original_size_bytes m).
Proof.
  assert (2 ≤ String.length (lower "abCab")) as H2 by (simpl; lia).
  split; [exact init_abc|]. split; [exact H2|].
  destruct (encode_mode abc_table "abCab") as [[[hex_output compressed] m]|e] eqn:He;
    [|by vm_compute in He].
  exists hex_output, compressed, m. split; [done|].
  apply (no_expansion "a,b,c" abc_table "abCab" hex_output compressed m
           init_abc He H2). simpl. lia.
Defined.

(** ** The hex text *)

Section hex.
Implicit Types (s x sep_rest : string) (l : list string) (bytes : list nat).

Lemma forall_bytes (P : nat → bool) :
  forallb P (seq 0 256) = true → ∀ n, n < 256 → P n = true.
Proof.
  intros Hall n Hn. rewrite forallb_forall in Hall. apply Hall.
  apply in_seq. lia.
Qed.

Lemma int16_hex_byte n : n < 256 → int16 (hex_byte n) = Some (Z.of_nat n).
Proof.
  intros Hn.
  pose proof (forall_bytes
    (fun n => bool_decide (int16 (hex_byte n) = Some (Z.of_nat n)))) as Hall.
  apply (proj1 (bool_decide_eq_true _)). apply Hall; [|done].
  vm_compute. reflexivity.
Qed.

Lemma hex_byte_no_comma n : n < 256 → str_contains "," (hex_byte n) = false.
Proof.
  intros Hn.
  pose proof (forall_bytes
    (fun n => negb (str_contains "," (hex_byte n)))) as Hall.
  apply negb_true_iff. apply Hall; [|done]. vm_compute. reflexivity.
Qed.

Lemma hex_byte_no_blank n : n < 256 → no_blank (hex_byte n) = true.
Proof.
  intros Hn. apply (forall_bytes (fun n => no_blank (hex_byte n))); [|done].
  vm_compute. reflexivity.
Qed.

Lemma hex_byte_prefix n : ∃ r, hex_byte n = String "0" (String "x" r).
Proof. by eexists. Qed.

Lemma no_blank_app s x : no_blank (s +:+ x) = no_blank s && no_blank x.
Proof.
  induction s as [|c s IH]; str_simpl; [done|]. by rewrite IH, andb_assoc.
Qed.

(** [strip] leaves a string without blanks as it is. *)
Lemma strip_no_blank s : no_blank s = true → strip s = s.
Proof.
  intros Hs. unfold strip.
  assert (lstrip s = s) as ->.
  { destruct s as [|c s]; [done|]. simpl in *.
    by destruct (is_space c). }
  induction s as [|c s IH]; simpl in *; [done|].
  apply andb_prop in Hs as [Hc Hs]. rewrite (IH Hs).
  destruct s; [|done]. by destruct (is_space c).
Qed.

Lemma split_no_sep sep s : str_contains sep s = false → split sep s = [s].
Proof.
  induction s as [|c s IH]; simpl; [done|]. rewrite (Ascii.eqb_sym c sep).
  destruct (Ascii.eqb sep c); [done|]. intros Hs. by rewrite (IH Hs).
Qed.

Lemma split_app sep s x :
  str_contains sep s = false →
  split sep (s +:+ String sep x) = s :: split sep x.
Proof.
  induction s as [|c s IH]; str_simpl.
  - intros _. by rewrite Ascii.eqb_refl.
  - rewrite (Ascii.eqb_sym c sep). destruct (Ascii.eqb sep c); [done|].
    intros Hs. by rewrite (IH Hs).
Qed.

Lemma join_cons sep x y l :
  join sep (x :: y :: l) = x +:+ sep +:+ join sep (y :: l).
Proof. reflexivity. Qed.

Lemma str_cons_app (c : ascii) s : str c +:+ s = String c s.
Proof. reflexivity. Qed.

(** Splitting what [join] joined gives the pieces back. *)
Lemma split_join sep l :
  l ≠ [] → Forall (fun x => str_contains sep x = false) l →
  split sep (join (str sep) l) = l.
Proof.
  intros Hne Hl. induction Hl as [|x l Hx Hl IH]; [done|].
  destruct l as [|y l].
  - by apply split_no_sep.
  - rewrite join_cons, str_cons_app, split_app by done. f_equal. by apply IH.
Qed.

Lemma no_blank_join l :
  Forall (fun x => no_blank x = true) l → no_blank (join "," l) = true.
Proof.
  induction 1 as [|x l Hx Hl IH]; [done|]. destruct l as [|y l]; [done|].
  rewrite join_cons, !no_blank_app, Hx, IH. done.
Qed.

Lemma bytearray_hex_bytes bytes :
  Forall (fun n : nat => n < 256) bytes →
  bytearray (int16 <$> (hex_byte <$> bytes)) = Some bytes.
Proof.
  induction 1 as [|n bytes Hn _ IH]; [done|].
  rewrite !fmap_cons. cbn [bytearray]. rewrite int16_hex_byte by done.
  assert (((0 <=? Z.of_nat n) && (Z.of_nat n <? 256))%Z = true) as ->.
  { apply andb_true_iff. split; [apply Z.leb_le|apply Z.ltb_lt]; lia. }
  rewrite IH. simpl. by rewrite Nat2Z.id.
Qed.

Lemma bytes_to_hex_prefix bytes :
  bytes ≠ [] → ∃ r, bytes_to_hex bytes = String "0" (String "x" r).
Proof.
  destruct bytes as [|n [|n' bytes]]; [done| |]; intros _; by eexists.
Qed.
End hex.

Lemma hex_file_round_trip_aux (bytes : list nat) :
  Forall (fun n : nat => n < 256) bytes →
  read_hex_file (bytes_to_hex bytes) = Some bytes.
Proof.
  intros Hrange. unfold read_hex_file.
  destruct bytes as [|n bytes]; [reflexivity|].
  assert (Forall (fun x => no_blank x = true) (hex_byte <$> n :: bytes)) as Hnb.
  { apply Forall_fmap. eapply Forall_impl; [exact Hrange|].
    intros k Hk. by apply hex_byte_no_blank. }
  assert (Forall (fun x => str_contains "," x = false) (hex_byte <$> n :: bytes))
    as Hnc.
  { apply Forall_fmap. eapply Forall_impl; [exact Hrange|].
    intros k Hk. by apply hex_byte_no_comma. }
  unfold bytes_to_hex. fold hex_byte.
  rewrite strip_no_blank by (by apply no_blank_join).
  destruct (bytes_to_hex_prefix (n :: bytes)) as [r Hr]; [done|].
  unfold bytes_to_hex in Hr. fold hex_byte in Hr.
  assert (startswith (join "," (hex_byte <$> n :: bytes)) "0x" = true) as ->.
  { rewrite Hr. unfold startswith. simpl. by destruct r. }
  change ","%string with (str ","). rewrite split_join; [|done|done].
  by apply bytearray_hex_bytes.
Qed.

Lemma hex_text_rejected_aux (bytes : list nat) :
  bytes ≠ [] → read_hex_text (bytes_to_hex bytes) = None.
Proof.
  intros Hne. destruct (bytes_to_hex_prefix bytes Hne) as [r ->].
  unfold read_hex_text, fromhex. destruct (is_ascii _); [|done].
  reflexivity.
Qed.

(** X15.  The hex text written by [bytes_to_hex] is read back by the
    [--file] branch of decode mode as the same bytes. *)
Theorem hex_file_round_trip (bytes : list nat) :
  Forall (fun n : nat => n < 256) bytes →
  read_hex_file (bytes_to_hex bytes) = Some bytes.
Proof. apply hex_file_round_trip_aux. Qed.

Lemma hex_file_round_trip_witness :
  Forall (fun n : nat => n < 256) [28; 192; 0; 255] ∧
  bytes_to_hex [28; 192; 0; 255] = "0x1c,0xc0,0x00,0xff" ∧
  read_hex_file "0x1c,0xc0,0x00,0xff" = Some [28; 192; 0; 255].
Proof.
  assert (Forall (fun n : nat => n < 256) [28; 192; 0; 255]) as Hr
    by (repeat constructor; lia).
  split; [exact Hr|]. split; [reflexivity|].
  exact (hex_file_round_trip [28; 192; 0; 255] Hr).
Defined.

(** X16.  The same hex text is refused when it is passed with [--text]:
    that branch reads plain pairs of hex digits and stops at the x of the
    first byte. *)
Theorem hex_text_rejected (bytes : list nat) :
  bytes ≠ [] → read_hex_text (bytes_to_hex bytes) = None.
Proof. apply hex_text_rejected_aux. Qed.

Lemma hex_text_rejected_witness :
  [28; 192] ≠ [] ∧ read_hex_text (bytes_to_hex [28; 192]) = None.
Proof.
  assert ([28; 192] ≠ ([] : list nat)) as Hne by discriminate.
  split; [exact Hne|]. exact (hex_text_rejected [28; 192] Hne).
Defined.

(** X17.  Decode mode undoes encode mode: from the hex file that encode
    mode wrote for a text, decode mode reads the same bytes and writes the
    lowercased text; the same hex text given with [--text] is refused. *)
Theorem encode_then_decode (content : string) (t : TextCompressor)
    (text hex_output : string) (compressed : list nat) (m : metrics) :
  init content = Ok t →
  encode_mode t text = Ok (hex_output, compressed, m) →
  read_hex_file hex_output = Some compressed ∧
  (∃ m', decode_mode t compressed = Some (Ok (lower text, m'))) ∧
  read_hex_text hex_output = None.
Proof.
  intros Hinit (n & Hc & -> & _)%encode_mode_Ok.
  pose proof (compress_range _ _ _ _ Hc) as Hrange.
  pose proof (decode_compress _ _ Hinit _ _ _ Hc) as Hd.
  split; [by apply hex_file_round_trip_aux|]. split.
  - unfold decode_mode, decompress. rewrite Hd. by eexists.
  - apply hex_text_rejected_aux. intros ->. by vm_compute in Hd.
Qed.

Lemma encode_then_decode_witness :
  init "a,b,c" = Ok abc_table ∧
  ∃ m, encode_mode abc_table "Cab" = Ok ("0x87", [135], m) ∧
       read_hex_file "0x87" = Some [135] ∧
       (∃ m', decode_mode abc_table [135] = Some (Ok ("cab", m'))) ∧
       read_hex_text "0x87" = None.
Proof.
  split; [exact init_abc|].
  destruct (encode_mode abc_table "Cab") as [[[hex_output compressed] m]|e] eqn:He;
    [|by vm_compute in He].
  pose proof (encode_then_decode "a,b,c" abc_table "Cab" hex_output compressed m
                init_abc He) as Hround.
  vm_compute in He. injection He as <- <- Hm. exists m. split; [done|].
  exact Hround.
Defined.

(** X18.  The metrics of decode mode: with a table whose symbols are all one
    character long, the reported bit stream size is the number of decoded
    characters times the width and never exceeds the compressed size in
    bits. *)
Theorem decode_metrics (content : string) (t : TextCompressor)
    (compressed : list nat) (text : string) (m : metrics) :
  init content = Ok t →
  Forall (fun sym => String.length sym = 1) (char_set t) →
  Forall (fun n : nat => n < 256) compressed →
  decode_mode t compressed = Some (Ok (text, m)) →
  decompress t compressed = Some (Ok text) ∧
  bitstream_bits m = Z.of_nat (String.length text * bits_per_char t) ∧
  (bitstream_bits m ≤ Z.of_nat (compressed_size_bits m))%Z ∧
  compressed_size_bits m = 8 * length compressed.
Proof.
  intros Hinit Hone Hrange Hmode. unfold decode_mode in Hmode.
  destruct (decompress t compressed) as [[out|e]|] eqn:Hdec; [|done..].
  injection Hmode as -> <-. split; [done|].
  unfold calculate_metrics. cbn [bitstream_bits compressed_size_bits].
  split; [done|]. split; [|lia].
  unfold decompress in Hdec.
  destruct (decode t compressed) as [[[out how]|e]|] eqn:Hd; [|done..].
  injection Hdec as ->. unfold decode in Hd.
  apply decode_loop_output in Hd as (syms & Htext & Hsyms & Hlen).
  rewrite str_app_nil_l in Htext. rewrite unpack_length in Hlen by done.
  assert (String.length text = length syms) as ->; [|lia].
  rewrite Htext. clear Htext Hlen.
  induction Hsyms as [|sym syms [code Hcode] _ IH]; [done|].
  simpl in *. rewrite str_length_app, IH.
  apply (table_reverse _ _ Hinit) in Hcode.
  assert (sym ∈ char_set t) as Hin by (apply (table_supported _ _ Hinit); eauto).
  rewrite Forall_forall in Hone. by rewrite (Hone _ Hin).
Qed.

Lemma decode_metrics_witness :
  init "a,b,c" = Ok abc_table ∧
  ∃ m, decode_mode abc_table [4; 16] = Some (Ok ("aabaabaa", m)) ∧
       bitstream_bits m = 16%Z ∧ compressed_size_bits m = 16.
Proof.
  assert (Forall (fun n : nat => n < 256) [4; 16]) as Hr
    by (repeat constructor; lia).
  assert (Forall (fun sym => String.length sym = 1) (char_set abc_table)) as H1
    by (repeat constructor).
  split; [exact init_abc|].
  destruct (decode_mode abc_table [4; 16]) as [[[text m]|e]|] eqn:Hm;
    [|by vm_compute in Hm..].
  destruct (decode_metrics "a,b,c" abc_table [4; 16] text m init_abc H1 Hr Hm)
    as (_ & Hbits & _ & Hsize).
  vm_compute in Hm. injection Hm as <- Hm'. exists m. split; [done|].
  rewrite Hbits, Hsize. split; reflexivity.
Defined.

(** ** The two embeddings agree below code point 256 *)

Section wide.
Implicit Types (c d : ascii) (s : string) (l : list string).

Lemma embed_cons c s : embed (String c s) = N_of_ascii c :: embed s.
Proof. reflexivity. Qed.

Lemma embed_nil_inv s : embed s = [] → s = EmptyString.
Proof. by destruct s. Qed.

#[local] Instance embed_inj : Inj (=) (=) embed.
Proof.
  intros s1. induction s1 as [|c s1 IH]; intros [|d s2]; try done.
  rewrite !embed_cons. intros [= Hc Hs]. f_equal; [|by apply IH].
  apply (f_equal ascii_of_N) in Hc. by rewrite !ascii_N_embedding in Hc.
Qed.

Lemma eqb_embed c d : (N_of_ascii c =? N_of_ascii d)%N = Ascii.eqb c d.
Proof.
  destruct (Ascii.eqb_spec c d) as [->|Hne]; [apply N.eqb_refl|].
  apply N.eqb_neq. intros Heq. apply (f_equal ascii_of_N) in Heq.
  by rewrite !ascii_N_embedding in Heq.
Qed.

Lemma wide_is_space c : Wide.is_space (N_of_ascii c) = is_space c.
Proof. destruct c as [[] [] [] [] [] [] [] []]; reflexivity. Qed.

Lemma wide_is_linebreak c : Wide.is_linebreak (N_of_ascii c) = is_linebreak c.
Proof. destruct c as [[] [] [] [] [] [] [] []]; reflexivity. Qed.

Lemma wide_lower_char c :
  Wide.lower_char (N_of_ascii c) = Some [N_of_ascii (lower_char c)].
Proof. destruct c as [[] [] [] [] [] [] [] []]; reflexivity. Qed.

Lemma wide_lower s : Wide.lower (embed s) = Some (embed (lower s)).
Proof.
  induction s as [|c s IH]; [done|].
  rewrite embed_cons. cbn [Wide.lower]. by rewrite wide_lower_char, IH.
Qed.

Lemma wide_lstrip s : Wide.lstrip (embed s) = embed (lstrip s).
Proof.
  induction s as [|c s IH]; [done|].
  rewrite embed_cons. cbn [Wide.lstrip lstrip]. rewrite wide_is_space.
  by destruct (is_space c).
Qed.

Lemma wide_rstrip s : Wide.rstrip (embed s) = embed (rstrip s).
Proof.
  induction s as [|c s IH]; [done|].
  rewrite embed_cons. cbn [Wide.rstrip rstrip]. rewrite IH, wide_is_space.
  destruct (rstrip s) as [|d r]; [by destruct (is_space c)|done].
Qed.

Lemma wide_strip s : Wide.strip (embed s) = embed (strip s).
Proof. unfold Wide.strip, strip. by rewrite wide_lstrip, wide_rstrip. Qed.

Lemma wide_split c s :
  Wide.split (N_of_ascii c) (embed s) = embed <$> split c s.
Proof.
  induction s as [|d s IH]; [done|].
  rewrite embed_cons. cbn [Wide.split split]. rewrite eqb_embed, IH.
  destruct (Ascii.eqb d c); [done|]. by destruct (split c s).
Qed.

Lemma wide_splitlines s : Wide.splitlines (embed s) = embed <$> splitlines s.
Proof.
  assert (∀ n s, String.length s ≤ n →
            Wide.splitlines (embed s) = embed <$> splitlines s) as Hgen;
    [|by apply (Hgen (String.length s))].
  clear s. intros n. induction n as [|n IH]; intros s Hn.
  { destruct s; [done|simpl in Hn; lia]. }
  destruct s as [|c s]; [done|]. simpl in Hn.
  rewrite embed_cons. cbn [Wide.splitlines splitlines].
  rewrite wide_is_linebreak. destruct (is_linebreak c).
  - destruct s as [|d s]; [done|]. rewrite embed_cons.
    change 13%N with (N_of_ascii "013"). change 10%N with (N_of_ascii "010").
    rewrite !eqb_embed. rewrite fmap_cons. f_equal.
    destruct (Ascii.eqb c "013" && Ascii.eqb d "010").
    + apply IH. simpl in Hn. lia.
    + rewrite <-embed_cons. apply IH. lia.
  - rewrite IH by lia. by destruct (splitlines s).
Qed.

Lemma wide_contains_comma s :
  existsb (N.eqb Wide.comma) (embed s) = str_contains "," s.
Proof.
  induction s as [|c s IH]; [done|].
  rewrite embed_cons. cbn [existsb str_contains]. rewrite IH.
  change Wide.comma with (N_of_ascii ","). rewrite eqb_embed.
  by destruct (Ascii.eqb "," c).
Qed.

Lemma wide_table_entries content :
  Wide.table_entries (embed content) = embed <$> table_entries content.
Proof.
  unfold Wide.table_entries, table_entries.
  rewrite wide_strip, wide_contains_comma.
  destruct (str_contains "," (strip content)).
  - change Wide.comma with (N_of_ascii ","). apply wide_split.
  - apply wide_splitlines.
Qed.

Lemma wide_read_char_set l :
  Wide.read_char_set (embed <$> l) = Some (embed <$> read_char_set l).
Proof.
  unfold Wide.read_char_set, read_char_set.
  match goal with
  | |- foldl ?wf (Some []) _ = Some (embed <$> foldl ?f [] l) =>
      assert (∀ acc, foldl wf (Some (embed <$> acc)) (embed <$> l)
                     = Some (embed <$> foldl f acc l)) as Hgen;
        [|exact (Hgen [])]
  end.
  induction l as [|entry l IH]; intros acc; [done|].
  rewrite fmap_cons. cbn [foldl]. rewrite wide_strip.
  destruct (strip entry) as [|c r] eqn:Hs.
  { apply IH. }
  rewrite <-Hs. destruct (embed (strip entry)) as [|x xs] eqn:He.
  { apply embed_nil_inv in He. congruence. }
  rewrite <-He. clear x xs He.
  assert (bool_decide (embed (strip entry) = Wide.space_word)
          = String.eqb (strip entry) "space") as ->.
  { change Wide.space_word with (embed "space").
    destruct (String.eqb_spec (strip entry) "space") as [->|Hne].
    - by apply bool_decide_eq_true.
    - apply bool_decide_eq_false. by intros ?%(inj embed). }
  rewrite Hs.
  set (char := if String.eqb (String c r) "space" then " "%string else String c r).
  assert ((if String.eqb (String c r) "space" then [32%N] else embed (String c r))
          = embed char) as ->.
  { unfold char. by destruct (String.eqb (String c r) "space"). }
  rewrite wide_lower.
  replace ((embed <$> acc) ++ [embed (lower char)])
    with (embed <$> (acc ++ [lower char])) by (by rewrite fmap_app).
  apply IH.
Qed.

Lemma wide_build_char_to_code w l :
  Wide.build_char_to_code w (embed <$> l) = kmap embed (build_char_to_code w l).
Proof.
  unfold Wide.build_char_to_code, build_char_to_code, enumerate.
  rewrite <-(kmap_empty embed). generalize (∅ : gmap string string).
  generalize 0. induction l as [|x l IH]; intros k m; [done|].
  rewrite fmap_cons. cbn [enumerate_from foldl].
  rewrite <-kmap_insert; [apply IH|apply embed_inj].
Qed.

Lemma wide_build_table (cs : list string) :
  match build_table cs with
  | Ok t => ∃ wt, Wide.build_table (embed <$> cs) = Wide.Ok wt ∧ same_codes t wt
  | Raise e => Wide.build_table (embed <$> cs) = Wide.Raise (widen_exn e)
  end.
Proof.
  destruct cs as [|x l]; [done|].
  assert (Wide.build_table (embed <$> x :: l)
          = let cs := embed <$> x :: l in
            let w := ceil_log2 (length cs + 1) in
            if 5 <? w then Wide.Raise (Wide.TableTooLarge (length cs))
            else
              let d := Wide.build_char_to_code w cs in
              Wide.Ok {| Wide.char_set := cs; Wide.num_chars := length cs;
                         Wide.bits_per_char := w; Wide.char_to_code := d;
                         Wide.code_to_char :=
                           <[format_b w (length cs) := None]> (Wide.invert d);
                         Wide.eos_code := format_b w (length cs) |}) as ->
    by reflexivity.
  assert (build_table (x :: l)
          = let cs := x :: l in
            let w := ceil_log2 (length cs + 1) in
            if 5 <? w then Raise (TableTooLarge (length cs))
            else
              let d := build_char_to_code w cs in
              Ok {| char_set := cs; num_chars := length cs;
                    bits_per_char := w; char_to_code := d;
                    code_to_char :=
                      <[format_b w (length cs) := None]> (invert d);
                    eos_code := format_b w (length cs) |}) as ->
    by reflexivity.
  cbv zeta. rewrite length_fmap.
  destruct (5 <? ceil_log2 (length (x :: l) + 1)); [done|].
  eexists. split; [reflexivity|]. split; [|done]. intros s.
  cbn [Wide.char_to_code char_to_code].
  rewrite wide_build_char_to_code.
  apply (lookup_kmap embed).
Qed.

(** A table built by [Wide.init] from a table file below code point 256
    has the codes of the table built by [init], and [Wide.init] fails when
    [init] does. *)
Lemma wide_init content :
  match init content with
  | Ok t => ∃ wt, Wide.init (embed content) = Some (Wide.Ok wt) ∧ same_codes t wt
  | Raise e => Wide.init (embed content) = Some (Wide.Raise (widen_exn e))
  end.
Proof.
  unfold init, Wide.init. rewrite wide_table_entries, wide_read_char_set.
  pose proof (wide_build_table (read_char_set (table_entries content))) as Hb.
  destruct (build_table (read_char_set (table_entries content))) as [t|e].
  - destruct Hb as (wt & Hwt & Hsame). exists wt. split; [|done].
    cbn [fmap option_fmap option_map]. by rewrite Hwt.
  - cbn [fmap option_fmap option_map]. by rewrite Hb.
Qed.

Lemma wide_validate t wt s :
  same_codes t wt → Wide.validate wt (embed s) = widen (validate t s).
Proof.
  intros (Hcodes & _). induction s as [|c s IH]; [done|].
  rewrite embed_cons. cbn [Wide.validate validate].
  change [N_of_ascii c] with (embed (str c)). rewrite Hcodes.
  by destruct (char_to_code t !! str c).
Qed.

Lemma wide_encode_chars t wt s acc :
  same_codes t wt →
  Wide.encode_chars wt (embed s) acc = widen (encode_chars t s acc).
Proof.
  intros (Hcodes & _). revert acc. induction s as [|c s IH]; intros acc; [done|].
  rewrite embed_cons. cbn [Wide.encode_chars encode_chars].
  change [N_of_ascii c] with (embed (str c)). rewrite Hcodes.
  by destruct (char_to_code t !! str c).
Qed.

(** The packing loop raises nothing but the errors of [int] and of
    [bytearray.append]. *)
Lemma pack_loop_Raise bitstream (idxs compressed : list nat) e :
  pack_loop bitstream idxs compressed = Raise e →
  widen_exn e = Wide.Packing e.
Proof.
  revert compressed. induction idxs as [|i idxs IH]; intros compressed; [done|].
  cbn [pack_loop]. destruct (pack_byte bitstream i) as [b|e'] eqn:Hb.
  { apply IH. }
  intros [= <-]. unfold pack_byte in Hb.
  destruct (int2 _) as [n|e''] eqn:Hi; simpl in Hb.
  - destruct (n <? 256); [done|]. by injection Hb as <-.
  - injection Hb as <-. unfold int2 in Hi.
    destruct (_ +:+ _) as [|x r]; [by injection Hi as <-|].
    destruct (int2_digits 0 (String x r)); [done|]. by injection Hi as <-.
Qed.

(** On a text below code point 256 [Wide.compress] is [compress]. *)
Lemma wide_compress t wt text :
  same_codes t wt →
  Wide.compress wt (embed text) = Some (widen (compress t text)).
Proof.
  intros Hsame. pose proof Hsame as (_ & Heos & Hbits).
  unfold Wide.compress, compress, encode_bits. rewrite wide_lower. simpl.
  f_equal. unfold Wide.compress_lowered.
  rewrite (wide_validate t wt _ Hsame).
  destruct (validate t (lower text)) as [[]|e]; [|done]. simpl.
  rewrite (wide_encode_chars t wt _ _ Hsame).
  destruct (encode_chars t (lower text) EmptyString) as [bs|e]; [|done]. simpl.
  rewrite Heos, Hbits.
  destruct (pack (bs +:+ eos_code t)) as [compressed|e] eqn:Hp; simpl; [done|].
  unfold pack in Hp. by rewrite (pack_loop_Raise _ _ _ _ Hp).
Qed.

Lemma wide_agrees content t :
  init content = Ok t →
  ∃ wt, Wide.init (embed content) = Some (Wide.Ok wt) ∧
        ∀ text, Wide.compress wt (embed text) = Some (widen (compress t text)).
Proof.
  intros Hinit. pose proof (wide_init content) as Hw. rewrite Hinit in Hw.
  destruct Hw as (wt & Hwt & Hsame). exists wt. split; [done|].
  intros text. by apply wide_compress.
Qed.
End wide.

(** ** The size of the output over all code points *)

Section wide_length.
Implicit Types (cs : list (list N)) (key text : list N) (code acc : string).

Lemma wide_codes_shape (w : nat) (m0 : gmap (list N) string) (k : nat) cs key code :
  foldl (fun d '(i, char) => <[char := format_b w i]> d) m0
    (enumerate_from k cs) !! key = Some code →
  m0 !! key = Some code ∨ ∃ i, i < k + length cs ∧ code = format_b w i.
Proof.
  revert m0 k. induction cs as [|x cs IH]; intros m0 k; simpl; [by left|].
  intros [Hm|(i & Hi & ->)]%IH.
  - destruct (decide (x = key)) as [->|Hne].
    + rewrite lookup_insert_eq in Hm. injection Hm as <-.
      right. exists k. split; [lia|done].
    + rewrite lookup_insert_ne in Hm by done. by left.
  - right. exists i. split; [lia|done].
Qed.

Lemma wide_build_table_Ok cs t :
  Wide.build_table cs = Wide.Ok t →
  1 ≤ Wide.bits_per_char t ∧
  String.length (Wide.eos_code t) = Wide.bits_per_char t ∧
  is_bits (Wide.eos_code t) = true ∧
  ∀ key code, Wide.char_to_code t !! key = Some code →
              String.length code = Wide.bits_per_char t ∧ is_bits code = true.
Proof.
  unfold Wide.build_table. destruct cs as [|x l]; [done|].
  assert (1 ≤ length (x :: l)) as Hlen by (simpl; lia).
  remember (x :: l) as cs eqn:Hcs. clear Hcs.
  destruct (5 <? ceil_log2 (length cs + 1)); [done|]. intros [= <-].
  cbn [Wide.bits_per_char Wide.eos_code Wide.char_to_code].
  pose proof (ceil_log2_pos (length cs) Hlen) as Hpos.
  pose proof (ceil_log2_upper (length cs) Hlen) as Hup.
  split; [done|]. split; [apply length_format_b; lia|].
  split; [apply is_bits_format_b|]. intros key code Hcode.
  apply wide_codes_shape in Hcode as [Hcode|(i & Hi & ->)].
  - by rewrite lookup_empty in Hcode.
  - split; [apply length_format_b; lia|apply is_bits_format_b].
Qed.

Lemma wide_encode_chars_Ok (t : Wide.TextCompressor) (w : nat) text acc bitstream :
  (∀ key code, Wide.char_to_code t !! key = Some code →
               String.length code = w ∧ is_bits code = true) →
  Wide.encode_chars t text acc = Wide.Ok bitstream →
  String.length bitstream = String.length acc + length text * w ∧
  (is_bits acc = true → is_bits bitstream = true).
Proof.
  intros Hcodes. revert acc. induction text as [|c text IH]; intros acc; simpl.
  - intros [= <-]. split; [lia|done].
  - destruct (Wide.char_to_code t !! [c]) as [code|] eqn:Hc; [|done].
    destruct (Hcodes _ _ Hc) as [Hlen Hb]. intros [Hl Hbits]%IH.
    rewrite str_length_app in Hl. split; [lia|].
    intros Hacc. apply Hbits. by rewrite is_bits_app, Hacc, Hb.
Qed.

(** The amended C9 over all code points: the number of bytes follows the
    length of the lowercased text. *)
Lemma wide_compressed_length (content : list N) (t : Wide.TextCompressor)
    (text lowered : list N) (compressed : list nat) (n : Z) :
  Wide.init content = Some (Wide.Ok t) →
  Wide.lower text = Some lowered →
  Wide.compress t text = Some (Wide.Ok (compressed, n)) →
  length compressed = ((length lowered + 1) * Wide.bits_per_char t + 7) / 8 ∧
  n = Z.of_nat (length lowered * Wide.bits_per_char t).
Proof.
  unfold Wide.init, Wide.compress. intros Hinit -> Hc.
  destruct (Wide.read_char_set _) as [cs|]; [|done].
  injection Hinit as Hinit. injection Hc as Hc.
  destruct (wide_build_table_Ok cs t Hinit) as (Hw & Heos & Hbeos & Hcodes).
  unfold Wide.compress_lowered in Hc.
  destruct (Wide.validate t lowered); [|done].
  destruct (Wide.encode_chars t lowered EmptyString) as [bs|e] eqn:Henc; [|done].
  destruct (wide_encode_chars_Ok t _ _ _ _ Hcodes Henc) as [Hlen Hbits].
  simpl in Hlen. specialize (Hbits eq_refl).
  destruct (pack_spec (bs +:+ Wide.eos_code t)) as (bytes & Hp & Hn & _).
  { by rewrite is_bits_app, Hbits, Hbeos. }
  rewrite Hp in Hc. simpl in Hc. injection Hc as <- <-.
  rewrite str_length_app, Hlen, Heos in *. split.
  - rewrite Hn. f_equal. lia.
  - lia.
Qed.
End wide_length.
